(** * DynamO: polynomial root solving and the simulation driver loop

    A shallow embedding of

    - [magnet/math/polynomial.hpp]: the [Polynomial<Order, Real>] class
      (construction, evaluation), the closed-form root solvers
      [solve_roots] for orders 0, 1 and 2 and the bound [max_abs_val];
    - [dynamo/simulation.cpp]: [Simulation::simShutdown] and the event loop
      of [Simulation::runSimulation].

    The C++ type [double] is read as the field of real numbers [R]:
    arithmetic is exact, [==] and [<] are the real comparisons.  Rounding,
    infinities, NaN and the negative zero are outside this model. *)

From Stdlib Require Import Reals Lra Lia List Bool String NArith Arith.
From Stdlib Require Import DecimalString.
From Stdlib Require Import ZArith SpecFloat.
Import ListNotations.

(** ** Comparisons of [double] values as booleans *)

Definition Reqb (x y : R) : bool := if Req_dec_T x y then true else false.
Definition Rltb (x y : R) : bool := if Rlt_dec x y then true else false.
Definition Rgtb (x y : R) : bool := Rltb y x.

(** ** Exceptions

    A C++ call either returns or leaves by an exception.  Only exceptions
    derived from [std::exception] carry a [what()] text. *)

Inductive cxx_exception : Type :=
| std_exception (what : string)
| other_exception.

Inductive result (A : Type) : Type :=
| Ok (a : A)
| Throw (e : cxx_exception).
Arguments Ok {A} a.
Arguments Throw {A} e.

Definition bind {A B : Type} (r : result A) (k : A -> result B) : result B :=
  match r with
  | Ok a => k a
  | Throw e => Throw e
  end.

(** * namespace magnet::math *)

Module Math.
Open Scope R_scope.

(** ** [class Polynomial : public std::array<Real, Order+1>] *)

Record Polynomial (Order : nat) : Type := mkPolynomial {
  coeffs : list R;
  coeffs_size : List.length coeffs = S Order
}.
Arguments coeffs {Order} p.
Arguments coeffs_size {Order} p.

(** [std::array::operator[]]: no bounds check in the source; every index
    the solvers use is a literal within [0..Order]. *)
Definition coef {Order : nat} (f : Polynomial Order) (i : nat) : R :=
  nth i (coeffs f) 0.

Notation "f .[ i ]" := (coef f i) (at level 1, format "f .[ i ]").

(** The braced initialiser [Polynomial<Order>{c0, ..., cOrder}] with a full
    list of coefficients. *)
Definition Polynomial0 (c0 : R) : Polynomial 0 :=
  mkPolynomial 0 [c0] eq_refl.
Definition Polynomial1 (c0 c1 : R) : Polynomial 1 :=
  mkPolynomial 1 [c0; c1] eq_refl.
Definition Polynomial2 (c0 c1 c2 : R) : Polynomial 2 :=
  mkPolynomial 2 [c0; c1; c2] eq_refl.

(** *** Constructor for lowering the order

    [std::copy(poly.begin(), poly.end()-1, Base::begin())], guarded in debug
    builds by a check of the dropped coefficient. *)

Definition firstn_size (Order : nat) (l : list R)
  (H : List.length l = S (S Order)) : List.length (firstn (S Order) l) = S Order :=
  eq_trans (length_firstn (S Order) l)
           (eq_trans (f_equal (Nat.min (S Order)) H) (Nat.min_l _ _ (Nat.le_succ_diag_r (S Order)))).

Definition lower_msg : string :=
  "Trying to reduce the order of a polynomial with non-zero highest order coefficients!".

Section Lowering.
(** Whether the translation unit is compiled with [MAGNET_DEBUG]; the
    macro [M_throw] is declared in [magnet/exception.hpp]. *)
Variable MAGNET_DEBUG : bool.
Variable M_throw : string -> cxx_exception.

Definition lower {Order : nat} (poly : Polynomial (S Order))
  : result (Polynomial Order) :=
  if MAGNET_DEBUG && negb (Reqb poly.[S Order] 0)
  then Throw (M_throw lower_msg)
  else Ok (mkPolynomial Order (firstn (S Order) (coeffs poly))
                        (firstn_size Order (coeffs poly) (coeffs_size poly))).
End Lowering.

(** *** Constructor for promoting from low-order Polynomial types

    [template<size_t N, class Real2> Polynomial(const Polynomial<N, Real2>&)],
    with [static_assert(N <= Order)].  Its two loops write through
    [Base::operator[]], which checks no bounds.  The model checks every write
    against the size of the array and stops at the first one outside it. *)

Inductive access (A : Type) : Type :=
| InBounds (a : A)
| OutOfBounds (index size : nat).
Arguments InBounds {A} a.
Arguments OutOfBounds {A} index size.

Definition array_write (a : list R) (i : nat) (v : R) : access (list R) :=
  if (i <? List.length a)%nat
  then InBounds (firstn i a ++ v :: skipn (S i) a)
  else OutOfBounds i (List.length a).

(** A counting loop over the indices [idx], in order. *)
Fixpoint for_each (idx : list nat) (body : nat -> list R -> access (list R))
  (a : list R) : access (list R) :=
  match idx with
  | [] => InBounds a
  | i :: rest =>
      match body i a with
      | InBounds a' => for_each rest body a'
      | OutOfBounds j n => OutOfBounds j n
      end
  end.

(** [base] is the array as it is when the constructor body starts.
    First loop: [i = 0; i <= N]; second loop: [i = N+1; i <= Order + 1],
    that is [Order + 1 - N] iterations. *)
Definition promote {N : nat} (Order : nat) (poly : Polynomial N) (base : list R)
  : access (list R) :=
  match for_each (seq 0 (S N)) (fun i a => array_write a i poly.[i]) base with
  | InBounds a =>
      for_each (seq (S N) (S Order - N)) (fun i a => array_write a i 0) a
  | OutOfBounds j n => OutOfBounds j n
  end.

(** *** Evaluation, [operator()(Real x)]: Horner's scheme

    [sum = c[Order]; for (i = Order-1; i >= 0; --i) { sum *= x; sum += c[i]; }].
    [horner f n x sum] runs the [n] remaining iterations, the next one at
    index [n-1]. *)
Fixpoint horner {Order : nat} (f : Polynomial Order) (n : nat) (x sum : R) : R :=
  match n with
  | O => sum
  | S i => horner f i x (sum * x + f.[i])
  end.

Definition eval {Order : nat} (f : Polynomial Order) (x : R) : R :=
  horner f Order x f.[Order].

(** ** [containers::StackVector<double, Capacity>] *)

(** Modelled from the spec: [magnet/containers/stack_vector.hpp] is not part
    of the sources.  The spec's RootSet is "a bounded (capacity <= Order)
    sequence of real roots; size 0 when no real roots exist": the elements in
    insertion order.  The conversion from a [StackVector<double, 1>] to a
    [StackVector<double, 2>] keeps the elements. *)
Definition StackVector (Capacity : nat) : Type := list R.

Definition push_back {Capacity : nat} (v : StackVector Capacity) (x : R)
  : StackVector Capacity := v ++ [x].

Definition widen {C1 C2 : nat} (v : StackVector C1) : StackVector C2 := v.

(** ** Polynomial roots *)

(** [std::copysign(x, y)]: the magnitude of [x] with the sign of [y]; a real
    [y] that is not negative has a clear sign bit. *)
Definition copysign (x y : R) : R :=
  if Rltb y 0 then - Rabs x else Rabs x.

(** The sign [copysign] transfers, as a factor. *)
Definition sign (y : R) : R := copysign 1 y.

Definition solve_roots0 (f : Polynomial 0) : StackVector 0 :=
  [].

Definition solve_roots1 (f : Polynomial 1) : StackVector 1 :=
  let roots : StackVector 1 := [] in
  if negb (Reqb f.[1] 0)
  then push_back roots (- f.[0] / f.[1])
  else roots.

(** The locals [arg], [root1] and [root2] of the order-2 solver. *)
Definition arg (f : Polynomial 2) : R :=
  f.[1] * f.[1] - 4 * f.[2] * f.[0].

Definition root1 (f : Polynomial 2) : R :=
  - (f.[1] + copysign (sqrt (arg f)) f.[1]) / (2 * f.[2]).

Definition root2 (f : Polynomial 2) : R :=
  f.[0] / (f.[2] * root1 f).

Section Solver.
Variable MAGNET_DEBUG : bool.
Variable M_throw : string -> cxx_exception.

Definition solve_roots2 (f : Polynomial 2) : result (StackVector 2) :=
  if Reqb f.[2] 0
  then bind (lower MAGNET_DEBUG M_throw f)
            (fun g => Ok (widen (solve_roots1 g)))
  else if Rltb (arg f) 0 then Ok []
  else if Reqb (arg f) 0 then Ok [- f.[1] / (2 * f.[2])]
  else Ok [root1 f; root2 f].
End Solver.

(** ** Polynomial bounds *)

Definition max_abs_val0 (f : Polynomial 0) (tmin tmax : R) : R :=
  Rabs f.[0].

Definition max_abs_val1 (f : Polynomial 1) (tmin tmax : R) : R :=
  Rmax (Rabs (eval f tmin)) (Rabs (eval f tmax)).

Definition max_abs_val2 (f : Polynomial 2) (tmin tmax : R) : R :=
  let droot := - f.[1] / (2 * f.[2]) in
  let retval := Rmax (Rabs (eval f tmin)) (Rabs (eval f tmax)) in
  if Rgtb droot tmin && Rltb droot tmax
  then Rmax (Rabs (eval f droot)) retval
  else retval.

(** ** Construction and algebra on arrays of fixed size

    The operators build their result in a local [Polynomial] and write it
    through [operator[]].  [set_coef] is such a write on a polynomial: the
    one of [array_write], with the size of the array kept. *)

Definition write_size (Order : nat) (a : list R) (i : nat) (v : R)
  (Ha : List.length a = S Order) (Hi : (i < S Order)%nat)
  : List.length (firstn i a ++ v :: skipn (S i) a) = S Order.
Proof.
  rewrite length_app, length_firstn. cbn [List.length].
  rewrite length_skipn. lia.
Qed.

Definition set_coef {Order : nat} (f : Polynomial Order) (i : nat) (v : R)
  : access (Polynomial Order) :=
  match lt_dec i (S Order) with
  | left Hi =>
      InBounds (mkPolynomial Order
                  (firstn i (coeffs f) ++ v :: skipn (S i) (coeffs f))
                  (write_size Order (coeffs f) i v (coeffs_size f) Hi))
  | right _ => OutOfBounds i (S Order)
  end.

(** A counting loop over the indices [idx] on any state. *)
Fixpoint for_range {A : Type} (idx : list nat) (body : nat -> A -> access A)
  (a : A) : access A :=
  match idx with
  | [] => InBounds a
  | i :: rest =>
      match body i a with
      | InBounds a' => for_range rest body a'
      | OutOfBounds j n => OutOfBounds j n
      end
  end.

(** [Polynomial() { Base::fill(Real()); }] *)
Definition default_Polynomial (Order : nat) : Polynomial Order :=
  mkPolynomial Order (repeat 0 (S Order)) (repeat_length 0 (S Order)).

(** [Polynomial(std::initializer_list<Real> _list)]: a [std::length_error]
    for a list longer than [Order+1]; otherwise the list is copied and the
    remaining coefficients are zeroed.  [base] is the array as it is when
    the constructor body starts. *)
Definition initializer_list {Order : nat} (_list : list R) (base : Polynomial Order)
  : result (access (Polynomial Order)) :=
  if (S Order <? List.length _list)%nat
  then Throw (std_exception "initializer list too long")
  else
    Ok (match for_range (seq 0 (List.length _list))
                        (fun i r => set_coef r i (nth i _list 0)) base with
        | InBounds r =>
            for_range (seq (List.length _list) (S Order - List.length _list))
                      (fun i r => set_coef r i 0) r
        | OutOfBounds j n => OutOfBounds j n
        end).

(** The promotion constructor on an array of fixed size: the two loops of
    [promote]. *)
Definition promote_sized {N : nat} (Order : nat) (poly : Polynomial N)
  (base : Polynomial Order) : access (Polynomial Order) :=
  match for_range (seq 0 (S N)) (fun i r => set_coef r i poly.[i]) base with
  | InBounds r => for_range (seq (S N) (S Order - N)) (fun i r => set_coef r i 0) r
  | OutOfBounds j n => OutOfBounds j n
  end.

(** [Polynomial<Order, Real> retval(poly)] for a [poly] of order [M <= Order]
    and coefficient type [Real1]: the copy constructor when the two types
    are the same, that is when the orders are equal and [Real] is [Real1]
    ([same_type]); the promotion constructor otherwise.  The operators are
    templates over the coefficient types and name the type of their result
    by a [decltype]: [same_type] says whether that type is the coefficient
    type of the operand the result is constructed from, as it is for two
    [double] operands. *)
Definition construct_from {M : nat} (same_type : bool) (Order : nat)
  (poly : Polynomial M) (base : Polynomial Order) : access (Polynomial Order) :=
  match Nat.eq_dec M Order with
  | left e =>
      if same_type
      then InBounds (mkPolynomial Order (coeffs poly)
                       (eq_trans (coeffs_size poly) (f_equal S e)))
      else promote_sized Order poly base
  | right _ => promote_sized Order poly base
  end.

(** [detail::max_order(N, M)]: [N > M ? N : M]. *)
Definition max_order (N M : nat) : nat := if (M <? N)%nat then N else M.

(** Unary [operator-]. *)
Definition opp {Order : nat} (f : Polynomial Order) : access (Polynomial Order) :=
  for_range (seq 0 (S Order)) (fun i retval => set_coef retval i (- f.[i]))
            (default_Polynomial Order).

(** [poly + r] (and [r + poly], which returns [poly + r]):
    [Polynomial<N, decltype(poly[0] + r)> retval(poly); retval[0] += r]. *)
Definition add_const {N : nat} (same_type : bool) (poly : Polynomial N) (r : R)
  (base : Polynomial N) : access (Polynomial N) :=
  match construct_from same_type N poly base with
  | InBounds retval => set_coef retval 0 (retval.[0] + r)
  | OutOfBounds j n => OutOfBounds j n
  end.

(** [poly1 + poly2]: the result, of coefficient type
    [decltype(poly1[0] + poly2[0])], is constructed from [poly1]. *)
Definition add {M N : nat} (same_type : bool) (poly1 : Polynomial M)
  (poly2 : Polynomial N) (base : Polynomial (max_order M N))
  : access (Polynomial (max_order M N)) :=
  match construct_from same_type (max_order M N) poly1 base with
  | InBounds retval =>
      for_range (seq 0 (S N))
                (fun i retval => set_coef retval i (retval.[i] + poly2.[i])) retval
  | OutOfBounds j n => OutOfBounds j n
  end.

(** [r - poly]:
    [Polynomial<N, decltype((-poly)[0] + r)> retval = -poly; retval[0] += r].
    Unary minus returns a [Polynomial<N>], of coefficient type [double]; the
    result is constructed from it. *)
Definition const_sub {N : nat} (same_type : bool) (r : R) (poly : Polynomial N)
  (base : Polynomial N) : access (Polynomial N) :=
  match opp poly with
  | InBounds negated =>
      match construct_from same_type N negated base with
      | InBounds retval => set_coef retval 0 (retval.[0] + r)
      | OutOfBounds j n => OutOfBounds j n
      end
  | OutOfBounds j n => OutOfBounds j n
  end.

(** [poly - r]:
    [Polynomial<N, decltype(poly[0] - r)> retval(poly); retval[0] -= r]. *)
Definition sub_const {N : nat} (same_type : bool) (poly : Polynomial N) (r : R)
  (base : Polynomial N) : access (Polynomial N) :=
  match construct_from same_type N poly base with
  | InBounds retval => set_coef retval 0 (retval.[0] - r)
  | OutOfBounds j n => OutOfBounds j n
  end.

(** [poly1 - poly2]: the result, of coefficient type
    [decltype(poly1[0] - poly2[0])], is constructed from [poly1]. *)
Definition sub {M N : nat} (same_type : bool) (poly1 : Polynomial M)
  (poly2 : Polynomial N) (base : Polynomial (max_order M N))
  : access (Polynomial (max_order M N)) :=
  match construct_from same_type (max_order M N) poly1 base with
  | InBounds retval =>
      for_range (seq 0 (S N))
                (fun i retval => set_coef retval i (retval.[i] - poly2.[i])) retval
  | OutOfBounds j n => OutOfBounds j n
  end.

(** [poly * r] (and [r * poly], which returns [poly * r]). *)
Definition mul_const {N : nat} (poly : Polynomial N) (r : R)
  : access (Polynomial N) :=
  for_range (seq 0 (S N)) (fun i retval => set_coef retval i (poly.[i] * r))
            (default_Polynomial N).

(** [poly1 * poly2]: for [i = 0 .. N+M], for [j] from [i > N ? i - N : 0]
    while [j <= i && j <= M], [retval[i] += poly1[j] * poly2[i-j]]. *)
Definition mul {M N : nat} (poly1 : Polynomial M) (poly2 : Polynomial N)
  : access (Polynomial (M + N)) :=
  for_range (seq 0 (S (N + M)))
    (fun i retval =>
       let j0 := if (N <? i)%nat then (i - N)%nat else 0%nat in
       for_range (seq j0 (S (Nat.min i M) - j0))
         (fun j retval => set_coef retval i (retval.[i] + poly1.[j] * poly2.[(i - j)%nat]))
         retval)
    (default_Polynomial (M + N)).

(** [derivative] of a polynomial of order [N >= 1], and its overload for the
    order 0. *)
Definition derivative {N : nat} (f : Polynomial (S N)) : access (Polynomial N) :=
  for_range (seq 0 (S N))
            (fun i retval => set_coef retval i (f.[S i] * INR (i + 1)))
            (default_Polynomial N).

Definition derivative0 (f : Polynomial 0) : Polynomial 0 :=
  Polynomial0 0.

End Math.

(** * The solvers in IEEE 754 arithmetic

    The same functions on [double] values as binary64 floating-point
    numbers: every operation rounds to nearest, ties to even, and overflows
    to an infinity.  [spec_float] is the Standard Library's model of the
    format. *)

Module Binary64.
Open Scope Z_scope.

Definition double : Type := spec_float.

Definition prec : Z := 53.
Definition emax : Z := 1024.

Definition add : double -> double -> double := SFadd prec emax.
Definition sub : double -> double -> double := SFsub prec emax.
Definition mul : double -> double -> double := SFmul prec emax.
Definition div : double -> double -> double := SFdiv prec emax.
Definition sqrt : double -> double := SFsqrt prec emax.
Definition opp : double -> double := SFopp.
Definition abs : double -> double := SFabs.
Definition eqb : double -> double -> bool := SFeqb.
Definition ltb : double -> double -> bool := SFltb.
Definition leb : double -> double -> bool := SFleb.

(** The value [m * 2^e] rounded to a [double]; integer literals of the
    source are converted this way. *)
Definition of_scaled (m e : Z) : double :=
  binary_normalize prec emax m e false.

Definition of_Z (z : Z) : double := of_scaled z 0.

(** The real number a finite [double] stands for. *)
Definition to_R (x : double) : R :=
  match x with
  | S754_finite s m e => (IZR (if s then Zneg m else Zpos m) * powerRZ 2 e)%R
  | _ => 0%R
  end.

Definition sign_bit (x : double) : bool :=
  match x with
  | S754_zero s | S754_infinity s | S754_finite s _ _ => s
  | S754_nan => false
  end.

(** [std::copysign], and [std::max(a, b)], which is [(a < b) ? b : a]. *)
Definition copysign (x y : double) : double :=
  if sign_bit y then opp (abs x) else abs x.

Definition max (a b : double) : double := if ltb a b then b else a.

Record Polynomial (Order : nat) : Type := mkPolynomial {
  coeffs : list double;
  coeffs_size : List.length coeffs = S Order
}.
Arguments coeffs {Order} p.
Arguments coeffs_size {Order} p.

Definition coef {Order : nat} (f : Polynomial Order) (i : nat) : double :=
  nth i (coeffs f) (S754_zero false).

Definition Polynomial2 (c0 c1 c2 : double) : Polynomial 2 :=
  mkPolynomial 2 [c0; c1; c2] eq_refl.

Definition firstn_size (Order : nat) (l : list double)
  (H : List.length l = S (S Order)) : List.length (firstn (S Order) l) = S Order :=
  eq_trans (length_firstn (S Order) l)
           (eq_trans (f_equal (Nat.min (S Order)) H)
                     (Nat.min_l _ _ (Nat.le_succ_diag_r (S Order)))).

Definition lower (MAGNET_DEBUG : bool) (M_throw : string -> cxx_exception)
  {Order : nat} (poly : Polynomial (S Order)) : result (Polynomial Order) :=
  if MAGNET_DEBUG && negb (eqb (coef poly (S Order)) (of_Z 0))
  then Throw (M_throw Math.lower_msg)
  else Ok (mkPolynomial Order (firstn (S Order) (coeffs poly))
                        (firstn_size Order (coeffs poly) (coeffs_size poly))).

Fixpoint horner {Order : nat} (f : Polynomial Order) (n : nat) (x sum : double)
  : double :=
  match n with
  | O => sum
  | S i => horner f i x (add (mul sum x) (coef f i))
  end.

Definition eval {Order : nat} (f : Polynomial Order) (x : double) : double :=
  horner f Order x (coef f Order).

Definition solve_roots1 (f : Polynomial 1) : list double :=
  let roots : list double := [] in
  if negb (eqb (coef f 1) (of_Z 0))
  then roots ++ [div (opp (coef f 0)) (coef f 1)]
  else roots.

Definition arg (f : Polynomial 2) : double :=
  sub (mul (coef f 1) (coef f 1)) (mul (mul (of_Z 4) (coef f 2)) (coef f 0)).

Definition root1 (f : Polynomial 2) : double :=
  div (opp (add (coef f 1) (copysign (sqrt (arg f)) (coef f 1))))
      (mul (of_Z 2) (coef f 2)).

Definition root2 (f : Polynomial 2) : double :=
  div (coef f 0) (mul (coef f 2) (root1 f)).

Definition solve_roots2 (MAGNET_DEBUG : bool) (M_throw : string -> cxx_exception)
  (f : Polynomial 2) : result (list double) :=
  if eqb (coef f 2) (of_Z 0)
  then bind (lower MAGNET_DEBUG M_throw f) (fun g => Ok (solve_roots1 g))
  else if ltb (arg f) (of_Z 0) then Ok []
  else if eqb (arg f) (of_Z 0)
       then Ok [div (opp (coef f 1)) (mul (of_Z 2) (coef f 2))]
  else Ok [root1 f; root2 f].

Definition max_abs_val2 (f : Polynomial 2) (tmin tmax : double) : double :=
  let droot := div (opp (coef f 1)) (mul (of_Z 2) (coef f 2)) in
  let retval := max (abs (eval f tmin)) (abs (eval f tmax)) in
  if ltb tmin droot && ltb droot tmax
  then max (abs (eval f droot)) retval
  else retval.

(** ** Sample inputs

    [x^2 + (2^27 + 1) x + (2^52 + 2^26)], whose discriminant is 1, and
    [2^1023 t^2 - 2^1023 t], whose extremum on [0, 1] is at [t = 1/2]. *)

Definition close_roots : Polynomial 2 :=
  Polynomial2 (of_Z (2 ^ 52 + 2 ^ 26)) (of_Z (2 ^ 27 + 1)) (of_Z 1).

Definition huge_parabola : Polynomial 2 :=
  Polynomial2 (of_Z 0) (of_scaled (-1) 1023) (of_scaled 1 1023).

(** The same polynomial with the real numbers its coefficients stand for. *)
Definition to_real (f : Polynomial 2) : Math.Polynomial 2 :=
  Math.Polynomial2 (to_R (coef f 0)) (to_R (coef f 1)) (to_R (coef f 2)).

End Binary64.

(** * namespace dynamo *)

Module Dynamo.

(** ** The simulation state

    [dynamo/simulation.hpp] is not part of the sources; the members below are
    the ones [simulation.cpp] reads and writes.  The event counters are
    unsigned integers, [dSysTime] is the system time, and a
    [shared_ptr<OutputPlugin>] is a handle to a plugin object. *)

Inductive ESimulationStatus : Type :=
| START | CONFIG_LOADED | INITIALISED | PRODUCTION | ERROR.

Definition status_eqb (a b : ESimulationStatus) : bool :=
  match a, b with
  | START, START | CONFIG_LOADED, CONFIG_LOADED | INITIALISED, INITIALISED
  | PRODUCTION, PRODUCTION | ERROR, ERROR => true
  | _, _ => false
  end.

Definition OutputPlugin : Type := nat.

Record Simulation : Type := mkSimulation {
  status : ESimulationStatus;
  eventCount : N;
  endEventCount : N;
  nextPrintEvent : N;
  eventPrintInterval : N;
  dSysTime : R;
  outputPlugins : list OutputPlugin
}.

Definition set_status (st : ESimulationStatus) (s : Simulation) : Simulation :=
  mkSimulation st (eventCount s) (endEventCount s) (nextPrintEvent s)
               (eventPrintInterval s) (dSysTime s) (outputPlugins s).

(** [nextPrintEvent = endEventCount = eventCount;] *)
Definition simShutdown (s : Simulation) : Simulation :=
  mkSimulation (status s) (eventCount s) (eventCount s) (eventCount s)
               (eventPrintInterval s) (dSysTime s) (outputPlugins s).

(** Addition of [size_t] values (64 bits). *)
Definition size_t_add (a b : N) : N := ((a + b) mod 2 ^ 64)%N.

(** [operator<<] of an unsigned integer: its decimal digits. *)
Definition show (n : N) : string := NilZero.string_of_uint (N.to_uint n).

(** The character written for [\n]. *)
Definition newline : string := String (Ascii.ascii_of_nat 10) EmptyString.

(** A call on the simulation returns with the state it leaves, or throws
    with the state as it is when the exception leaves the call. *)
Inductive completion : Type :=
| Returns (s : Simulation)
| Throws (s : Simulation) (e : cxx_exception).

(** How a run of the event loop ends; [OutOfFuel] is the model's bound on
    the number of iterations, not a behaviour of the program. *)
Inductive outcome : Type :=
| Finished (s : Simulation)
| Aborted (s : Simulation) (e : cxx_exception)
| OutOfFuel.

(** [events] counts the calls of [runNextEvent]. *)
Record run : Type := mkRun {
  events : nat;
  ending : outcome
}.

Definition one_more (r : run) : run := mkRun (S (events r)) (ending r).

Section Loop.
(** Code outside [simulation.cpp]: the macro [M_throw], the scheduler's
    [runNextEvent] and the plugins' virtual [periodicOutput]. *)
Variable M_throw : string -> cxx_exception.
Variable runNextEvent : Simulation -> completion.
Variable periodicOutput : OutputPlugin -> Simulation -> completion.

(** [BOOST_FOREACH(shared_ptr<OutputPlugin> & Ptr, outputPlugins)
      Ptr->periodicOutput();] *)
Fixpoint foreach_periodicOutput (plugins : list OutputPlugin) (s : Simulation)
  : completion :=
  match plugins with
  | [] => Returns s
  | Ptr :: rest =>
      match periodicOutput Ptr s with
      | Returns s' => foreach_periodicOutput rest s'
      | Throws s' e => Throws s' e
      end
  end.

(** The [try] block of the loop; the second component is [nextPrint].  The
    line break written to [std::cout] after the plugins' output is not part
    of the state. *)
Definition try_block (silentMode : bool) (s : Simulation) (nextPrint : N)
  : completion * N :=
  match runNextEvent s with
  | Throws s1 e => (Throws s1 e, nextPrint)
  | Returns s1 =>
      if (nextPrint <=? eventCount s1)%N && negb silentMode
         && negb (List.length (outputPlugins s1) =? 0)%nat
      then
        match foreach_periodicOutput (outputPlugins s1) s1 with
        | Returns s2 =>
            (Returns s2, size_t_add (eventCount s2) (eventPrintInterval s2))
        | Throws s2 e => (Throws s2 e, nextPrint)
        end
      else (Returns s1, nextPrint)
  end.

(** [catch (std::exception &cep)]: an exception of another type is not
    caught and leaves [runSimulation] as it is. *)
Definition catch_block (s : Simulation) (e : cxx_exception) : cxx_exception :=
  match e with
  | std_exception what =>
      M_throw (newline ++ "While executing event " ++ show (eventCount s) ++ what)
  | other_exception => other_exception
  end.

(** [while (eventCount < endEventCount) try {...} catch (...) {...}] *)
Fixpoint while_loop (fuel : nat) (silentMode : bool) (s : Simulation)
  (nextPrint : N) : run :=
  if (eventCount s <? endEventCount s)%N then
    match fuel with
    | O => mkRun 0 OutOfFuel
    | S fuel' =>
        match try_block silentMode s nextPrint with
        | (Returns s', nextPrint') =>
            one_more (while_loop fuel' silentMode s' nextPrint')
        | (Throws s' e, _) => mkRun 1 (Aborted s' (catch_block s' e))
        end
    end
  else mkRun 0 (Finished s).

(** [reaches silentMode k s nextPrint s' nextPrint']: from the loop test
    in state [s] the loop passes [k] iterations, each one entered and left
    without an exception, and stands at the loop test in state [s']. *)
Inductive reaches (silentMode : bool)
  : nat -> Simulation -> N -> Simulation -> N -> Prop :=
| reaches_here (s : Simulation) (nextPrint : N) :
    reaches silentMode 0 s nextPrint s nextPrint
| reaches_step (k : nat) (s s1 s2 : Simulation) (nextPrint np1 np2 : N) :
    (eventCount s <? endEventCount s)%N = true ->
    try_block silentMode s nextPrint = (Returns s1, np1) ->
    reaches silentMode k s1 np1 s2 np2 ->
    reaches silentMode (S k) s nextPrint s2 np2.

(** The state and [nextPrint] with which [runSimulation] enters its
    loop. *)
Definition enters (s : Simulation) : Simulation * N :=
  let s := set_status PRODUCTION s in
  (s, size_t_add (eventCount s) (eventPrintInterval s)).

Definition bad_state (s : Simulation) : bool :=
  negb (status_eqb (status s) INITIALISED)
  && negb (status_eqb (status s) PRODUCTION).

Definition runSimulation (fuel : nat) (silentMode : bool) (s : Simulation)
  : run :=
  if bad_state s
  then mkRun 0 (Aborted s (M_throw "Bad state for runSimulation()"))
  else
    let (s, nextPrint) := enters s in
    while_loop fuel silentMode s nextPrint.
End Loop.

(** Plugins that leave the two counters alone, whatever else they do. *)
Definition plugins_keep_counters
  (periodicOutput : OutputPlugin -> Simulation -> completion) : Prop :=
  forall (Ptr : OutputPlugin) (s s' : Simulation),
    periodicOutput Ptr s = Returns s' ->
    (eventCount s' = eventCount s /\ endEventCount s' = endEventCount s)%N.

(** ** Sample collaborators

    Schedulers and a plugin on which the loop can be run: every event
    advances the event counter; the event started at count [n] either throws
    or asks for the shutdown. *)

Definition count_event (s : Simulation) : Simulation :=
  mkSimulation (status s) (eventCount s + 1)%N (endEventCount s)
               (nextPrintEvent s) (eventPrintInterval s) (dSysTime s)
               (outputPlugins s).

Definition scheduler_failing_at (n : N) (what : string) (s : Simulation)
  : completion :=
  if (eventCount s =? n)%N
  then Throws s (std_exception what)
  else Returns (count_event s).

Definition scheduler_shutdown_at (n : N) (s : Simulation) : completion :=
  if (eventCount s =? n)%N
  then Returns (count_event (simShutdown s))
  else Returns (count_event s).

Definition quiet_plugin (Ptr : OutputPlugin) (s : Simulation) : completion :=
  Returns s.

(** A simulation ready to run from event 5 to event 10, at system time
    [t]. *)
Definition sample_simulation (t : R) : Simulation :=
  mkSimulation INITIALISED 5 10 0 1 t [0%nat].

(** ** [Simulation::configLoaded] *)

Definition configLoaded (M_throw : string -> cxx_exception) (s : Simulation)
  : completion :=
  if negb (status_eqb (status s) START)
  then Throws s (M_throw "Loading config at wrong time"%string)
  else Returns (set_status CONFIG_LOADED s).

(** A scheduler whose events each return with the event counter advanced by
    one and the end of the run where it was, and plugins that return. *)
Definition counts_events (runNextEvent : Simulation -> completion) : Prop :=
  forall s : Simulation,
    (eventCount s < endEventCount s)%N ->
    exists s' : Simulation,
      runNextEvent s = Returns s'
      /\ eventCount s' = (eventCount s + 1)%N
      /\ endEventCount s' = endEventCount s.

Definition plugins_return
  (periodicOutput : OutputPlugin -> Simulation -> completion) : Prop :=
  forall (Ptr : OutputPlugin) (s : Simulation),
    exists s' : Simulation, periodicOutput Ptr s = Returns s'.

(** The scheduler that only counts its events. *)
Definition counting_scheduler (s : Simulation) : completion :=
  Returns (count_event s).

(** A plugin whose periodic output throws. *)
Definition failing_plugin (what : string) (Ptr : OutputPlugin) (s : Simulation)
  : completion :=
  Throws s (std_exception what).

(** Plugins of which the one with handle [n] throws and the others
    return. *)
Definition one_failing_plugin (n : nat) (what : string) (Ptr : OutputPlugin)
  (s : Simulation) : completion :=
  if (Ptr =? n)%nat then Throws s (std_exception what) else Returns s.

(** A scheduler whose events throw [e]. *)
Definition scheduler_throwing (e : cxx_exception) (s : Simulation) : completion :=
  Throws s e.

End Dynamo.

(** * namespace coil *)

Module Coil.
Open Scope R_scope.

(** ** [class Attribute : public std::vector<GLfloat>]

    The inherited vector is the buffer of the attribute, [N * components]
    values, element after element.  The members kept are the ones the
    statistics of [initGLData] use; the OpenGL buffer, the context and the
    signal are outside the model.  [GLfloat] values are only compared here
    ([std::min], [std::max]), never computed with: they are read as reals.

    A vector access checks no bounds and an integer division no divisor:
    [None] stands for an access outside the vector or a division by zero. *)

Record Attribute : Type := mkAttribute {
  buffer : list R;
  _components : nat;
  _dataUpdates : nat;
  _minVals : list R;
  _maxVals : list R
}.

Definition components (a : Attribute) : nat := _components a.

(** [size() / _components] *)
Definition num_elements (a : Attribute) : option nat :=
  if (_components a =? 0)%nat then None
  else Some (List.length (buffer a) / _components a)%nat.

(** [v[k]] read and written, and [std::vector<GLfloat>(v.begin(), v.begin() + n)]. *)
Definition read (v : list R) (k : nat) : option R := nth_error v k.

Definition write (v : list R) (k : nat) (x : R) : option (list R) :=
  if (k <? List.length v)%nat
  then Some (firstn k v ++ x :: skipn (S k) v)
  else None.

Definition range_copy (v : list R) (n : nat) : option (list R) :=
  if (n <=? List.length v)%nat then Some (firstn n v) else None.

Fixpoint for_opt {A : Type} (idx : list nat) (body : nat -> A -> option A)
  (a : A) : option A :=
  match idx with
  | [] => Some a
  | i :: rest =>
      match body i a with
      | Some a' => for_opt rest body a'
      | None => None
      end
  end.

(** The body of the inner loop, on the pair [(_minVals, _maxVals)]:
    with [x] the value of the buffer at [i * comps + j],
    [_minVals[j] = std::min(_minVals[j], x);
     _maxVals[j] = std::max(_minVals[j], x);] *)
Definition update_statistics (d : list R) (comps i j : nat)
  (st : list R * list R) : option (list R * list R) :=
  let (mins, maxs) := st in
  match read mins j, read d (i * comps + j) with
  | Some m, Some x =>
      match write mins j (Rmin m x) with
      | Some mins' =>
          match read mins' j with
          | Some m' =>
              match write maxs j (Rmax m' x) with
              | Some maxs' => Some (mins', maxs')
              | None => None
              end
          | None => None
          end
      | None => None
      end
  | _, _ => None
  end.

(** [initGLData], without the upload to OpenGL and the signal: the update
    counter and the statistics.  [num_elements()] is evaluated at the loop
    test, the first time after the two copies. *)
Definition initGLData (a : Attribute) : option Attribute :=
  let comps := components a in
  match range_copy (buffer a) (components a),
        range_copy (buffer a) (components a) with
  | Some mins, Some maxs =>
      match num_elements a with
      | Some n =>
          match for_opt (seq 1 (n - 1))
                  (fun i st =>
                     for_opt (seq 0 comps) (update_statistics (buffer a) comps i) st)
                  (mins, maxs) with
          | Some (mins', maxs') =>
              Some (mkAttribute (buffer a) (_components a) (S (_dataUpdates a))
                                mins' maxs')
          | None => None
          end
      | None => None
      end
  | _, _ => None
  end.

(** Three elements of two components each: (3, 10), (1, 30), (2, 20). *)
Definition sample_attribute : Attribute :=
  mkAttribute [3; 10; 1; 30; 2; 20] 2 0 [] [].

End Coil.

(** * Properties of the polynomial solvers *)

Import Math.
Open Scope R_scope.

(** ** Reading the comparisons *)

Lemma Reqb_true (x y : R) : x = y -> Reqb x y = true.
Proof. intros H. unfold Reqb. destruct (Req_dec_T x y); congruence. Qed.

Lemma Reqb_false (x y : R) : x <> y -> Reqb x y = false.
Proof. intros H. unfold Reqb. destruct (Req_dec_T x y); congruence. Qed.

Lemma Rltb_true (x y : R) : x < y -> Rltb x y = true.
Proof. intros H. unfold Rltb. destruct (Rlt_dec x y); [reflexivity | contradiction]. Qed.

Lemma Rltb_false (x y : R) : y <= x -> Rltb x y = false.
Proof. intros H. unfold Rltb. destruct (Rlt_dec x y); [lra | reflexivity]. Qed.

(** ** The quadratic formula over the reals *)

Section Quadratic.
Variables c0 c1 c2 s : R.
Hypothesis c2_nonzero : c2 <> 0.
Hypothesis s_square : s * s = c1 * c1 - 4 * c2 * c0.

Let r : R := - (c1 + s) / (2 * c2).

Lemma constant_from_square : c0 = (c1 * c1 - s * s) / (4 * c2).
Proof. rewrite s_square. field. exact c2_nonzero. Qed.

Lemma formula_root : (c2 * r + c1) * r + c0 = 0.
Proof. unfold r. rewrite constant_from_square. field. exact c2_nonzero. Qed.

Lemma derived_root :
  c1 + s <> 0 -> c0 / (c2 * r) = - (c1 + - s) / (2 * c2).
Proof.
  intros Hs. unfold r. rewrite constant_from_square. field.
  split; [exact c2_nonzero | lra].
Qed.
End Quadratic.

(** ** [copysign] on a positive magnitude *)

Lemma copysign_sign (x y : R) : 0 <= x -> copysign x y = sign y * x.
Proof.
  intros Hx. unfold sign, copysign.
  rewrite (Rabs_right x) by lra. rewrite Rabs_R1.
  destruct (Rltb y 0); ring.
Qed.

Lemma sign_cases (y : R) : (y < 0 /\ sign y = -1) \/ (0 <= y /\ sign y = 1).
Proof.
  unfold sign, copysign. rewrite Rabs_R1.
  destruct (Rlt_dec y 0) as [Hy | Hy].
  - left. rewrite Rltb_true by exact Hy. split; [exact Hy | reflexivity].
  - right. rewrite Rltb_false by lra. split; [lra | reflexivity].
Qed.

Lemma copysign_square (x y : R) : copysign x y * copysign x y = x * x.
Proof.
  unfold copysign. destruct (Rltb y 0);
    unfold Rabs; destruct (Rcase_abs x); ring.
Qed.

(** With a positive discriminant the magnitude added to [c1] never cancels
    it. *)
Lemma copysign_no_cancel (x y : R) : 0 < x -> y + copysign x y <> 0.
Proof.
  intros Hx. rewrite copysign_sign by lra.
  destruct (sign_cases y) as [[Hy Hs] | [Hy Hs]]; rewrite Hs; lra.
Qed.

Lemma sqrt_arg_square (f : Polynomial 2) :
  0 <= arg f ->
  copysign (sqrt (arg f)) f.[1] * copysign (sqrt (arg f)) f.[1]
  = f.[1] * f.[1] - 4 * f.[2] * f.[0].
Proof.
  intros H. rewrite copysign_square, sqrt_sqrt by exact H. reflexivity.
Qed.

Lemma eval2 (f : Polynomial 2) (x : R) :
  eval f x = (f.[2] * x + f.[1]) * x + f.[0].
Proof. reflexivity. Qed.

Lemma eval1 (f : Polynomial 1) (x : R) : eval f x = f.[1] * x + f.[0].
Proof. reflexivity. Qed.

Lemma eval0 (f : Polynomial 0) (x : R) : eval f x = f.[0].
Proof. reflexivity. Qed.

Lemma root1_nonzero (f : Polynomial 2) :
  f.[2] <> 0 -> 0 < arg f -> root1 f <> 0.
Proof.
  intros H2 Hd. unfold root1.
  assert (Hs : 0 < sqrt (arg f)) by (apply sqrt_lt_R0; exact Hd).
  pose proof (copysign_no_cancel (sqrt (arg f)) f.[1] Hs) as Hn.
  intros Hz. apply Hn.
  apply (Rmult_eq_compat_r (2 * f.[2])) in Hz.
  unfold Rdiv in Hz. rewrite Rmult_assoc, Rinv_l, Rmult_0_l in Hz by lra. lra.
Qed.

Lemma root2_formula (f : Polynomial 2) :
  f.[2] <> 0 -> 0 < arg f ->
  root2 f = - (f.[1] + - copysign (sqrt (arg f)) f.[1]) / (2 * f.[2]).
Proof.
  intros H2 Hd. unfold root2, root1.
  apply derived_root.
  - exact H2.
  - apply sqrt_arg_square. lra.
  - apply copysign_no_cancel. apply sqrt_lt_R0. exact Hd.
Qed.

Lemma root1_is_root (f : Polynomial 2) :
  f.[2] <> 0 -> 0 <= arg f -> eval f (root1 f) = 0.
Proof.
  intros H2 Hd. rewrite eval2. unfold root1.
  apply formula_root; [exact H2 | apply sqrt_arg_square; exact Hd].
Qed.

Lemma root2_is_root (f : Polynomial 2) :
  f.[2] <> 0 -> 0 < arg f -> eval f (root2 f) = 0.
Proof.
  intros H2 Hd. rewrite eval2, root2_formula by assumption.
  apply formula_root; [exact H2 |].
  rewrite <- sqrt_arg_square by lra. ring.
Qed.

(** ** The branches of the order-2 solver *)

Section SolverBranches.
Variable MAGNET_DEBUG : bool.
Variable M_throw : string -> cxx_exception.
Variable f : Polynomial 2.

Let solve := solve_roots2 MAGNET_DEBUG M_throw.

Lemma solve_roots2_no_real_root :
  f.[2] <> 0 -> arg f < 0 -> solve f = Ok [].
Proof.
  intros H2 Hd. unfold solve, solve_roots2.
  rewrite Reqb_false, Rltb_true by assumption. reflexivity.
Qed.

Lemma solve_roots2_double_root :
  f.[2] <> 0 -> arg f = 0 -> solve f = Ok [- f.[1] / (2 * f.[2])].
Proof.
  intros H2 Hd. unfold solve, solve_roots2.
  rewrite Reqb_false, Rltb_false, Reqb_true by (assumption || lra).
  reflexivity.
Qed.

Lemma solve_roots2_two_roots :
  f.[2] <> 0 -> 0 < arg f -> solve f = Ok [root1 f; root2 f].
Proof.
  intros H2 Hd. unfold solve, solve_roots2.
  rewrite (Reqb_false _ _ H2), Rltb_false, Reqb_false by lra.
  reflexivity.
Qed.

Lemma lower_coefficients :
  f.[2] = 0 ->
  exists g : Polynomial 1,
    lower MAGNET_DEBUG M_throw f = Ok g /\ g.[0] = f.[0] /\ g.[1] = f.[1].
Proof.
  intros H2. unfold lower. rewrite (Reqb_true _ _ H2), andb_false_r.
  eexists. split; [reflexivity |].
  unfold coef. cbn [coeffs]. rewrite !nth_firstn. split; reflexivity.
Qed.

Lemma solve_roots2_linear :
  f.[2] = 0 ->
  solve f = Ok (widen (solve_roots1 (Polynomial1 f.[0] f.[1]))).
Proof.
  intros H2. unfold solve, solve_roots2. rewrite (Reqb_true _ _ H2).
  destruct (lower_coefficients H2) as [g [Hg [Hg0 Hg1]]].
  rewrite Hg. cbn [bind]. unfold solve_roots1. rewrite Hg0, Hg1.
  reflexivity.
Qed.
End SolverBranches.

(** ** The claims on [solve_roots] *)

(** C1, in exact real arithmetic: for an order-2 polynomial
    [c0 + c1 x + c2 x^2] with [c2 <> 0] and discriminant
    [D = c1^2 - 4 c2 c0], [solve_roots] returns no root when
    [D < 0], the single root [-c1/(2 c2)] when [D = 0], and when [D > 0] the
    two roots [r1 = (-c1 - sign(c1) sqrt(D))/(2 c2)] and [c0/(c2 r1)], in
    this order.  [sign] is the sign that [copysign] transfers: [-1] for a
    negative [c1], [+1] otherwise. *)
Theorem solve_roots2_case_analysis
  (MAGNET_DEBUG : bool) (M_throw : string -> cxx_exception) (f : Polynomial 2) :
  f.[2] <> 0 ->
  let D := f.[1] * f.[1] - 4 * f.[2] * f.[0] in
  (D < 0 -> solve_roots2 MAGNET_DEBUG M_throw f = Ok []) /\
  (D = 0 -> solve_roots2 MAGNET_DEBUG M_throw f = Ok [- f.[1] / (2 * f.[2])]) /\
  (0 < D ->
   let r1 := (- f.[1] - sign f.[1] * sqrt D) / (2 * f.[2]) in
   solve_roots2 MAGNET_DEBUG M_throw f = Ok [r1; f.[0] / (f.[2] * r1)]).
Proof.
  intros H2 D. fold (arg f) in D. subst D. repeat split.
  - intros Hd. apply solve_roots2_no_real_root; assumption.
  - intros Hd. apply solve_roots2_double_root; assumption.
  - intros Hd r1.
    rewrite solve_roots2_two_roots by assumption.
    assert (Hr : root1 f = r1).
    { unfold root1, r1. rewrite copysign_sign by apply sqrt_pos.
      unfold Rdiv. ring. }
    unfold root2. rewrite Hr. reflexivity.
Qed.

Lemma solve_roots2_case_analysis_witness :
  (Polynomial2 2 (-3) 1).[2] <> 0 /\
  solve_roots2 true std_exception (Polynomial2 2 (-3) 1)
  = Ok [ (- (-3) - sign (-3) * sqrt ((-3) * (-3) - 4 * 1 * 2)) / (2 * 1);
         2 / (1 * ((- (-3) - sign (-3) * sqrt ((-3) * (-3) - 4 * 1 * 2)) / (2 * 1))) ].
Proof.
  assert (H2 : (Polynomial2 2 (-3) 1).[2] <> 0) by (cbn; lra).
  split; [exact H2 |].
  destruct (solve_roots2_case_analysis true std_exception (Polynomial2 2 (-3) 1) H2)
    as [_ [_ Htwo]].
  apply Htwo. cbn. lra.
Defined.

(** C9: in the two-root branch ([c2 <> 0], [D > 0]) the first root
    [root1 = -(c1 + sign(c1) sqrt(D))/(2 c2)] is not zero, and neither is the
    denominator [c2 * root1] of the second root. *)
Theorem root1_never_zero (f : Polynomial 2) :
  f.[2] <> 0 ->
  0 < f.[1] * f.[1] - 4 * f.[2] * f.[0] ->
  root1 f
  = - (f.[1] + sign f.[1] * sqrt (f.[1] * f.[1] - 4 * f.[2] * f.[0])) / (2 * f.[2])
  /\ root1 f <> 0
  /\ f.[2] * root1 f <> 0.
Proof.
  intros H2 Hd. fold (arg f) in Hd |- *.
  pose proof (root1_nonzero f H2 Hd) as Hr.
  repeat split.
  - unfold root1. rewrite copysign_sign by apply sqrt_pos. reflexivity.
  - exact Hr.
  - apply Rmult_integral_contrapositive_currified; assumption.
Qed.

Lemma root1_never_zero_witness :
  (Polynomial2 (-1) 0 1).[2] <> 0 /\
  0 < (Polynomial2 (-1) 0 1).[1] * (Polynomial2 (-1) 0 1).[1]
      - 4 * (Polynomial2 (-1) 0 1).[2] * (Polynomial2 (-1) 0 1).[0] /\
  root1 (Polynomial2 (-1) 0 1) <> 0.
Proof.
  assert (H2 : (Polynomial2 (-1) 0 1).[2] <> 0) by (cbn; lra).
  assert (Hd : 0 < (Polynomial2 (-1) 0 1).[1] * (Polynomial2 (-1) 0 1).[1]
                   - 4 * (Polynomial2 (-1) 0 1).[2] * (Polynomial2 (-1) 0 1).[0])
    by (cbn; lra).
  split; [exact H2 | split; [exact Hd |]].
  exact (proj1 (proj2 (root1_never_zero (Polynomial2 (-1) 0 1) H2 Hd))).
Defined.

(** C4: for an order-2 polynomial with [c2 <> 0] and [D > 0] the two roots
    returned by [solve_roots] satisfy Vieta's relations
    [root1 * root2 = c0/c2] and [root1 + root2 = -c1/c2]. *)
Theorem solve_roots2_vieta
  (MAGNET_DEBUG : bool) (M_throw : string -> cxx_exception) (f : Polynomial 2) :
  f.[2] <> 0 ->
  0 < f.[1] * f.[1] - 4 * f.[2] * f.[0] ->
  exists r1 r2 : R,
    solve_roots2 MAGNET_DEBUG M_throw f = Ok [r1; r2]
    /\ r1 * r2 = f.[0] / f.[2]
    /\ r1 + r2 = - f.[1] / f.[2].
Proof.
  intros H2 Hd. fold (arg f) in Hd.
  exists (root1 f), (root2 f). repeat split.
  - apply solve_roots2_two_roots; assumption.
  - pose proof (root1_nonzero f H2 Hd) as Hr.
    unfold root2. field. split; assumption.
  - rewrite root2_formula by assumption. unfold root1. field. exact H2.
Qed.

Lemma solve_roots2_vieta_witness :
  (Polynomial2 2 (-3) 1).[2] <> 0 /\
  0 < (Polynomial2 2 (-3) 1).[1] * (Polynomial2 2 (-3) 1).[1]
      - 4 * (Polynomial2 2 (-3) 1).[2] * (Polynomial2 2 (-3) 1).[0] /\
  exists r1 r2 : R,
    solve_roots2 false std_exception (Polynomial2 2 (-3) 1) = Ok [r1; r2]
    /\ r1 * r2 = (Polynomial2 2 (-3) 1).[0] / (Polynomial2 2 (-3) 1).[2]
    /\ r1 + r2 = - (Polynomial2 2 (-3) 1).[1] / (Polynomial2 2 (-3) 1).[2].
Proof.
  assert (H2 : (Polynomial2 2 (-3) 1).[2] <> 0) by (cbn; lra).
  assert (Hd : 0 < (Polynomial2 2 (-3) 1).[1] * (Polynomial2 2 (-3) 1).[1]
                   - 4 * (Polynomial2 2 (-3) 1).[2] * (Polynomial2 2 (-3) 1).[0])
    by (cbn; lra).
  split; [exact H2 | split; [exact Hd |]].
  exact (solve_roots2_vieta false std_exception (Polynomial2 2 (-3) 1) H2 Hd).
Defined.

(** Every root the order-1 solver returns is a root. *)
Lemma solve_roots1_sound (f : Polynomial 1) (r : R) :
  In r (solve_roots1 f) -> eval f r = 0.
Proof.
  unfold solve_roots1, push_back. unfold Reqb.
  destruct (Req_dec_T f.[1] 0) as [H1 | H1]; cbn [negb app In]; [tauto |].
  intros [Hr | []]. subst r. rewrite eval1. field. exact H1.
Qed.

Lemma solve_roots2_sound
  (MAGNET_DEBUG : bool) (M_throw : string -> cxx_exception) (f : Polynomial 2)
  (roots : StackVector 2) (r : R) :
  solve_roots2 MAGNET_DEBUG M_throw f = Ok roots -> In r roots -> eval f r = 0.
Proof.
  intros Hs Hr.
  destruct (Req_dec_T f.[2] 0) as [H2 | H2].
  - rewrite solve_roots2_linear in Hs by exact H2.
    injection Hs as Hs. subst roots. unfold widen in Hr.
    apply solve_roots1_sound in Hr. rewrite eval1 in Hr. cbn in Hr.
    rewrite eval2, H2. lra.
  - destruct (Rtotal_order (arg f) 0) as [Hd | [Hd | Hd]].
    + rewrite solve_roots2_no_real_root in Hs by assumption.
      injection Hs as Hs. subst roots. destruct Hr.
    + rewrite solve_roots2_double_root in Hs by assumption.
      injection Hs as Hs. subst roots. destruct Hr as [Hr | []]. subst r.
      rewrite eval2.
      replace (- f.[1] / (2 * f.[2])) with (- (f.[1] + 0) / (2 * f.[2]))
        by (f_equal; ring).
      apply formula_root; [exact H2 |]. unfold arg in Hd. lra.
    + rewrite solve_roots2_two_roots in Hs by assumption.
      injection Hs as Hs. subst roots.
      destruct Hr as [Hr | [Hr | []]]; subst r.
      * apply root1_is_root; [exact H2 | lra].
      * apply root2_is_root; assumption.
Qed.

(** C2: for a polynomial of order 0, 1 or 2 over the reals, every root
    returned by [solve_roots] is a zero of the polynomial as [operator()]
    evaluates it; in the two-root branch of the order-2 solver both the
    directly computed root and the one derived as [c0/(c2 root1)] are
    zeros. *)
Theorem solve_roots_sound
  (MAGNET_DEBUG : bool) (M_throw : string -> cxx_exception) :
  (forall (f : Polynomial 0) (r : R), In r (solve_roots0 f) -> eval f r = 0)
  /\ (forall (f : Polynomial 1) (r : R), In r (solve_roots1 f) -> eval f r = 0)
  /\ (forall (f : Polynomial 2) (roots : StackVector 2) (r : R),
        solve_roots2 MAGNET_DEBUG M_throw f = Ok roots ->
        In r roots -> eval f r = 0)
  /\ (forall f : Polynomial 2,
        f.[2] <> 0 -> 0 < f.[1] * f.[1] - 4 * f.[2] * f.[0] ->
        solve_roots2 MAGNET_DEBUG M_throw f = Ok [root1 f; root2 f]
        /\ root2 f = f.[0] / (f.[2] * root1 f)
        /\ eval f (root1 f) = 0 /\ eval f (root2 f) = 0).
Proof.
  repeat split.
  - intros f r [].
  - apply solve_roots1_sound.
  - apply solve_roots2_sound.
  - apply solve_roots2_two_roots; assumption.
  - apply root1_is_root; [assumption | unfold arg; lra].
  - apply root2_is_root; assumption.
Qed.

Lemma solve_roots_sound_witness :
  solve_roots2 true std_exception (Polynomial2 (-9) 12 0) = Ok [- (-9) / 12]
  /\ In (- (-9) / 12) [- (-9) / 12]
  /\ eval (Polynomial2 (-9) 12 0) (- (-9) / 12) = 0.
Proof.
  assert (Hs : solve_roots2 true std_exception (Polynomial2 (-9) 12 0)
               = Ok [- (-9) / 12]).
  { unfold solve_roots2, solve_roots1, lower, push_back, widen. cbn [coef coeffs Polynomial2 nth].
    rewrite (Reqb_true 0 0 eq_refl). cbn [negb andb bind].
    unfold coef. cbn [coeffs firstn nth].
    rewrite Reqb_false by lra. reflexivity. }
  assert (Hi : In (- (-9) / 12) [- (-9) / 12]) by (left; reflexivity).
  split; [exact Hs | split; [exact Hi |]].
  exact (proj1 (proj2 (proj2 (solve_roots_sound true std_exception)))
           (Polynomial2 (-9) 12 0) [- (-9) / 12] (- (-9) / 12) Hs Hi).
Defined.

(** C3: an order-2 polynomial with [c2 = 0] is solved by the order-1 solver
    on the coefficients [(c0, c1)]; with [c1 = 0] as well the root set is
    empty; and the call returns, it throws nothing, whether or not the debug
    check of the lowering constructor is compiled in. *)
Theorem solve_roots2_degenerate
  (MAGNET_DEBUG : bool) (M_throw : string -> cxx_exception) (f : Polynomial 2) :
  f.[2] = 0 ->
  solve_roots2 MAGNET_DEBUG M_throw f
  = Ok (widen (solve_roots1 (Polynomial1 f.[0] f.[1])))
  /\ (f.[1] = 0 -> solve_roots2 MAGNET_DEBUG M_throw f = Ok [])
  /\ (forall e : cxx_exception, solve_roots2 MAGNET_DEBUG M_throw f <> Throw e).
Proof.
  intros H2. pose proof (solve_roots2_linear MAGNET_DEBUG M_throw f H2) as Hl.
  repeat split.
  - exact Hl.
  - intros H1. rewrite Hl. unfold solve_roots1. cbn [Polynomial1 coef coeffs nth].
    rewrite (Reqb_true _ _ H1). reflexivity.
  - intros e He. rewrite Hl in He. discriminate He.
Qed.

Lemma solve_roots2_degenerate_witness :
  (Polynomial2 (-9) 0 0).[2] = 0 /\
  (Polynomial2 (-9) 0 0).[1] = 0 /\
  solve_roots2 true std_exception (Polynomial2 (-9) 0 0) = Ok [].
Proof.
  assert (H2 : (Polynomial2 (-9) 0 0).[2] = 0) by reflexivity.
  assert (H1 : (Polynomial2 (-9) 0 0).[1] = 0) by reflexivity.
  split; [exact H2 | split; [exact H1 |]].
  exact (proj1 (proj2 (solve_roots2_degenerate true std_exception
                         (Polynomial2 (-9) 0 0) H2)) H1).
Defined.

(** The order-2 solver throws on no input at all. *)
Lemma solve_roots2_returns
  (MAGNET_DEBUG : bool) (M_throw : string -> cxx_exception) (f : Polynomial 2) :
  exists roots : StackVector 2, solve_roots2 MAGNET_DEBUG M_throw f = Ok roots.
Proof.
  destruct (Req_dec_T f.[2] 0) as [H2 | H2].
  - eexists. apply solve_roots2_linear. exact H2.
  - destruct (Rtotal_order (arg f) 0) as [Hd | [Hd | Hd]]; eexists.
    + apply solve_roots2_no_real_root; eassumption.
    + apply solve_roots2_double_root; eassumption.
    + apply solve_roots2_two_roots; eassumption.
Qed.

(** C10: the order-0 solver returns the empty root set for every
    coefficient, the zero polynomial included; the order-1 solver returns the
    empty set when [c1 = 0], also when [c0 = 0].  Both are plain values: the
    zero polynomial is reported as having no roots, not as an error. *)
Theorem zero_polynomial_no_roots :
  (forall f : Polynomial 0, solve_roots0 f = [])
  /\ solve_roots0 (Polynomial0 0) = []
  /\ (forall f : Polynomial 1, f.[1] = 0 -> solve_roots1 f = [])
  /\ solve_roots1 (Polynomial1 0 0) = [].
Proof.
  assert (H1 : forall f : Polynomial 1, f.[1] = 0 -> solve_roots1 f = []).
  { intros f Hf. unfold solve_roots1. rewrite (Reqb_true _ _ Hf). reflexivity. }
  repeat split.
  - exact H1.
  - apply H1. reflexivity.
Qed.

Lemma zero_polynomial_no_roots_witness :
  (Polynomial1 0 0).[1] = 0 /\ solve_roots1 (Polynomial1 0 0) = [].
Proof.
  assert (H : (Polynomial1 0 0).[1] = 0) by reflexivity.
  split; [exact H |].
  exact (proj1 (proj2 (proj2 zero_polynomial_no_roots)) (Polynomial1 0 0) H).
Defined.

(** ** The bound [max_abs_val] of an order-2 polynomial *)

Lemma Rabs_le_between (a b : R) : Rabs a <= b -> - b <= a <= b.
Proof. unfold Rabs. destruct (Rcase_abs a); lra. Qed.

Lemma Rmult_nonneg_nonpos (x y : R) : 0 <= x -> y <= 0 -> x * y <= 0.
Proof. intros Hx Hy. nra. Qed.

(** A parabola with vertex [v], given by its differences between the point
    [t], the end points of an interval around [t] and the vertex: its value
    at [t] lies within any bound on the values at the end points and, when
    the vertex is strictly inside, at the vertex. *)
Lemma parabola_between (c2 tmin tmax t v ga gb gv gt M : R) :
  tmin <= t <= tmax ->
  gt - ga = c2 * ((t - tmin) * (t + tmin - 2 * v)) ->
  gt - gb = c2 * ((t - tmax) * (t + tmax - 2 * v)) ->
  gt - gv = c2 * ((t - v) * (t - v)) ->
  - M <= ga <= M ->
  - M <= gb <= M ->
  (tmin < v < tmax -> - M <= gv <= M) ->
  - M <= gt <= M.
Proof.
  intros [Ha Hb] Da Db Dv Hmin Hmax Hin.
  assert (Hsq : 0 <= (t - v) * (t - v)) by apply Rle_0_sqr.
  set (Pa := (t - tmin) * (t + tmin - 2 * v)) in *.
  set (Pb := (t - tmax) * (t + tmax - 2 * v)) in *.
  set (Pv := (t - v) * (t - v)) in *.
  destruct (Rle_lt_dec v tmin) as [Hl | Hl];
    [| destruct (Rle_lt_dec tmax v) as [Hr | Hr]].
  - (* the vertex is left of the interval: increasing distance from it *)
    assert (HPa : 0 <= Pa) by (apply Rmult_le_pos; lra).
    destruct (Rle_lt_dec (t + tmax - 2 * v) 0) as [Hs | Hs].
    + assert (t = tmin) by lra. subst t.
      assert (Pa = 0) by (unfold Pa; ring).
      clearbody Pa Pb Pv. subst Pa. lra.
    + assert (HPb : Pb <= 0).
      { unfold Pb. rewrite Rmult_comm. apply Rmult_nonneg_nonpos; lra. }
      clearbody Pa Pb Pv.
      destruct (Rlt_le_dec 0 c2); split; nra.
  - (* the vertex is right of the interval *)
    assert (HPb : 0 <= Pb).
    { unfold Pb.
      replace ((t - tmax) * (t + tmax - 2 * v))
        with ((tmax - t) * (2 * v - t - tmax)) by ring.
      apply Rmult_le_pos; lra. }
    destruct (Rle_lt_dec 0 (t + tmin - 2 * v)) as [Hs | Hs].
    + assert (t = tmax) by lra. subst t.
      assert (Pb = 0) by (unfold Pb; ring).
      clearbody Pa Pb Pv. subst Pb. lra.
    + assert (HPa : Pa <= 0) by (apply Rmult_nonneg_nonpos; lra).
      clearbody Pa Pb Pv.
      destruct (Rlt_le_dec 0 c2); split; nra.
  - (* the vertex is strictly inside *)
    specialize (Hin (conj Hl Hr)).
    assert (Hab : Pa <= 0 \/ Pb <= 0).
    { destruct (Rle_lt_dec t v); [left | right].
      - apply Rmult_nonneg_nonpos; lra.
      - unfold Pb. rewrite Rmult_comm. apply Rmult_nonneg_nonpos; lra. }
    clearbody Pa Pb Pv.
    destruct (Rlt_le_dec 0 c2); destruct Hab; split; nra.
Qed.

Section Parabola.
Variable f : Polynomial 2.
Hypothesis c2_nonzero : f.[2] <> 0.

(** The vertex, [droot] in the source. *)
Let v : R := - f.[1] / (2 * f.[2]).

Lemma linear_coefficient : f.[1] = - (2 * f.[2] * v).
Proof. unfold v. field. exact c2_nonzero. Qed.

Lemma eval_difference (t u : R) :
  eval f t - eval f u = f.[2] * ((t - u) * (t + u - 2 * v)).
Proof. rewrite !eval2, linear_coefficient. ring. Qed.

Lemma eval_bounded (tmin tmax t M : R) :
  tmin <= t <= tmax ->
  Rabs (eval f tmin) <= M ->
  Rabs (eval f tmax) <= M ->
  (tmin < v < tmax -> Rabs (eval f v) <= M) ->
  Rabs (eval f t) <= M.
Proof.
  intros Ht Hmin Hmax Hv. apply Rabs_le.
  apply (parabola_between f.[2] tmin tmax t v
           (eval f tmin) (eval f tmax) (eval f v)).
  - exact Ht.
  - apply eval_difference.
  - apply eval_difference.
  - rewrite eval_difference. ring.
  - apply Rabs_le_between, Hmin.
  - apply Rabs_le_between, Hmax.
  - intros I. apply Rabs_le_between, Hv, I.
Qed.
End Parabola.

Lemma max_abs_val2_inside (f : Polynomial 2) (tmin tmax : R) :
  tmin < - f.[1] / (2 * f.[2]) < tmax ->
  max_abs_val2 f tmin tmax
  = Rmax (Rabs (eval f (- f.[1] / (2 * f.[2]))))
         (Rmax (Rabs (eval f tmin)) (Rabs (eval f tmax))).
Proof.
  intros [Hl Hr]. unfold max_abs_val2, Rgtb.
  rewrite !Rltb_true by assumption. reflexivity.
Qed.

Lemma max_abs_val2_outside (f : Polynomial 2) (tmin tmax : R) :
  ~ tmin < - f.[1] / (2 * f.[2]) < tmax ->
  max_abs_val2 f tmin tmax = Rmax (Rabs (eval f tmin)) (Rabs (eval f tmax)).
Proof.
  intros Hn. unfold max_abs_val2, Rgtb, Rltb.
  destruct (Rlt_dec tmin (- f.[1] / (2 * f.[2]))) as [Hl | Hl];
    [| reflexivity].
  destruct (Rlt_dec (- f.[1] / (2 * f.[2])) tmax) as [Hr | Hr];
    [| reflexivity].
  exfalso. apply Hn. split; assumption.
Qed.

(** C6, in exact real arithmetic: for an order-2 polynomial with
    [c2 <> 0] and [tmin <= tmax], [max_abs_val] is the maximum of [|f(t)|]
    over [tmin <= t <= tmax]: it
    bounds every [|f(t)|] of the interval and is attained in it.  It is the
    larger of [|f(tmin)|] and [|f(tmax)|], compared with [|f|] at the vertex
    [-c1/(2 c2)] exactly when the vertex is strictly inside the interval. *)
Theorem max_abs_val2_is_maximum (f : Polynomial 2) (tmin tmax : R) :
  f.[2] <> 0 ->
  tmin <= tmax ->
  (forall t : R, tmin <= t <= tmax -> Rabs (eval f t) <= max_abs_val2 f tmin tmax)
  /\ (exists t : R,
        tmin <= t <= tmax /\ Rabs (eval f t) = max_abs_val2 f tmin tmax)
  /\ (tmin < - f.[1] / (2 * f.[2]) < tmax ->
      max_abs_val2 f tmin tmax
      = Rmax (Rabs (eval f (- f.[1] / (2 * f.[2]))))
             (Rmax (Rabs (eval f tmin)) (Rabs (eval f tmax))))
  /\ (~ tmin < - f.[1] / (2 * f.[2]) < tmax ->
      max_abs_val2 f tmin tmax
      = Rmax (Rabs (eval f tmin)) (Rabs (eval f tmax))).
Proof.
  intros H2 Hle.
  split; [| split; [| split;
    [apply max_abs_val2_inside | apply max_abs_val2_outside]]].
  - intros t Ht.
    destruct (Rlt_dec tmin (- f.[1] / (2 * f.[2]))) as [Hl | Hl];
      [destruct (Rlt_dec (- f.[1] / (2 * f.[2])) tmax) as [Hr | Hr] |].
    + rewrite max_abs_val2_inside by (split; assumption).
      apply eval_bounded with (tmin := tmin) (tmax := tmax); try assumption.
      * eapply Rle_trans; [apply Rmax_l | apply Rmax_r].
      * eapply Rle_trans; [apply Rmax_r | apply Rmax_r].
      * intros _. apply Rmax_l.
    + rewrite max_abs_val2_outside by (intros [_ I]; contradiction).
      apply eval_bounded with (tmin := tmin) (tmax := tmax); try assumption.
      * apply Rmax_l.
      * apply Rmax_r.
      * intros [_ I]. contradiction.
    + rewrite max_abs_val2_outside by (intros [I _]; contradiction).
      apply eval_bounded with (tmin := tmin) (tmax := tmax); try assumption.
      * apply Rmax_l.
      * apply Rmax_r.
      * intros [I _]. contradiction.
  - assert (Hends : exists t : R,
               tmin <= t <= tmax
               /\ Rabs (eval f t) = Rmax (Rabs (eval f tmin)) (Rabs (eval f tmax))).
    { apply (Rmax_case (Rabs (eval f tmin)) (Rabs (eval f tmax))
               (fun m => exists t : R, tmin <= t <= tmax /\ Rabs (eval f t) = m));
        [exists tmin | exists tmax]; (split; [lra | reflexivity]). }
    destruct (Rlt_dec tmin (- f.[1] / (2 * f.[2]))) as [Hl | Hl];
      [destruct (Rlt_dec (- f.[1] / (2 * f.[2])) tmax) as [Hr | Hr] |].
    + rewrite max_abs_val2_inside by (split; assumption).
      apply (Rmax_case (Rabs (eval f (- f.[1] / (2 * f.[2]))))
               (Rmax (Rabs (eval f tmin)) (Rabs (eval f tmax)))
               (fun m => exists t : R, tmin <= t <= tmax /\ Rabs (eval f t) = m)).
      * exists (- f.[1] / (2 * f.[2])). split; [lra | reflexivity].
      * exact Hends.
    + rewrite max_abs_val2_outside by (intros [_ I]; contradiction).
      exact Hends.
    + rewrite max_abs_val2_outside by (intros [I _]; contradiction).
      exact Hends.
Qed.

Lemma max_abs_val2_is_maximum_witness :
  (Polynomial2 0 (-2) 1).[2] <> 0 /\ 0 <= 3 /\
  Rabs (eval (Polynomial2 0 (-2) 1) 1) <= max_abs_val2 (Polynomial2 0 (-2) 1) 0 3.
Proof.
  assert (H2 : (Polynomial2 0 (-2) 1).[2] <> 0) by (cbn; lra).
  assert (Hle : 0 <= 3) by lra.
  split; [exact H2 | split; [exact Hle |]].
  apply (proj1 (max_abs_val2_is_maximum (Polynomial2 0 (-2) 1) 0 3 H2 Hle)).
  lra.
Defined.

(** ** The promotion constructor *)

Lemma array_write_in_bounds (a : list R) (i : nat) (v : R) :
  (i < List.length a)%nat ->
  exists a' : list R,
    array_write a i v = InBounds a' /\ List.length a' = List.length a.
Proof.
  intros Hi. unfold array_write.
  apply Nat.ltb_lt in Hi as Hb. rewrite Hb.
  eexists. split; [reflexivity |].
  rewrite length_app, length_firstn. cbn [List.length]. rewrite length_skipn. lia.
Qed.

Lemma for_each_in_bounds (val : nat -> R) (idx : list nat) :
  forall a : list R,
    Forall (fun i => (i < List.length a)%nat) idx ->
    exists a' : list R,
      for_each idx (fun i a => array_write a i (val i)) a = InBounds a'
      /\ List.length a' = List.length a.
Proof.
  induction idx as [| i rest IH]; intros a Hall.
  - exists a. split; reflexivity.
  - inversion Hall as [| ? ? Hi Hrest]; subst.
    destruct (array_write_in_bounds a i (val i) Hi) as [a1 [Hw Hlen]].
    cbn [for_each]. rewrite Hw.
    destruct (IH a1) as [a2 [Hf Hlen2]].
    + rewrite Hlen. exact Hrest.
    + exists a2. split; [exact Hf | congruence].
Qed.

Lemma for_each_app (body : nat -> list R -> access (list R)) (l1 l2 : list nat) :
  forall a : list R,
    for_each (l1 ++ l2) body a
    = match for_each l1 body a with
      | InBounds a' => for_each l2 body a'
      | OutOfBounds j n => OutOfBounds j n
      end.
Proof.
  induction l1 as [| i rest IH]; intros a; cbn [for_each app].
  - reflexivity.
  - destruct (body i a) as [a' | j n]; [apply IH | reflexivity].
Qed.

Lemma seq_in_bounds (start len n : nat) :
  (start + len <= n)%nat -> Forall (fun i => (i < n)%nat) (seq start len).
Proof.
  intros H. apply Forall_forall. intros i Hi. apply in_seq in Hi. lia.
Qed.

(** Whatever the orders, the second loop of the promotion constructor ends
    with a write at index [Order + 1] of an array of [Order + 1] elements. *)
Lemma promote_out_of_bounds (N Order : nat) (poly : Polynomial N) (base : list R) :
  (N <= Order)%nat ->
  List.length base = S Order ->
  promote Order poly base = OutOfBounds (S Order) (S Order).
Proof.
  intros HN Hbase. unfold promote.
  destruct (for_each_in_bounds (fun i => poly.[i]) (seq 0 (S N)) base)
    as [a1 [H1 Hlen1]].
  { apply seq_in_bounds. lia. }
  rewrite H1.
  replace (S Order - N)%nat with (S (Order - N)) by lia.
  rewrite seq_S, for_each_app.
  destruct (for_each_in_bounds (fun _ => 0) (seq (S N) (Order - N)) a1)
    as [a2 [H2 Hlen2]].
  { apply seq_in_bounds. lia. }
  rewrite H2. cbn [for_each]. unfold array_write.
  replace (S N + (Order - N))%nat with (S Order) by lia.
  replace (List.length a2) with (S Order) by congruence.
  rewrite Nat.ltb_irrefl. reflexivity.
Qed.

(** C5 (the source departs from it): promoting the order-1 polynomial
    [2 - x] to order 2, as [2.0 - x + x * x] does, copies the indices 0 and
    1, zeroes the index 2, and then writes the index 3 of an array of 3
    elements. *)
Theorem promote_writes_past_the_end :
  promote 2 (Polynomial1 2 (-1)) [0; 0; 0] = OutOfBounds 3 3.
Proof. reflexivity. Qed.

(** * Properties of the event loop *)

Import Dynamo.
Open Scope N_scope.

Section LoopFacts.
Variable M_throw : string -> cxx_exception.
Variable runNextEvent : Simulation -> completion.
Variable periodicOutput : OutputPlugin -> Simulation -> completion.

Let loop := while_loop M_throw runNextEvent periodicOutput.
Let body := try_block runNextEvent periodicOutput.

Lemma while_loop_exit (fuel : nat) (silentMode : bool) (s : Simulation)
  (nextPrint : N) :
  (eventCount s <? endEventCount s) = false ->
  loop fuel silentMode s nextPrint = mkRun 0 (Finished s).
Proof.
  intros H. unfold loop. destruct fuel; cbn [while_loop]; rewrite H; reflexivity.
Qed.

Lemma while_loop_step (fuel : nat) (silentMode : bool) (s : Simulation)
  (nextPrint : N) :
  (eventCount s <? endEventCount s) = true ->
  loop (S fuel) silentMode s nextPrint
  = match body silentMode s nextPrint with
    | (Returns s', nextPrint') => one_more (loop fuel silentMode s' nextPrint')
    | (Throws s' e, _) => mkRun 1 (Aborted s' (catch_block M_throw s' e))
    end.
Proof.
  intros H. unfold loop, body. cbn [while_loop]. rewrite H. reflexivity.
Qed.

(** The iterations that pass are counted and change nothing else of the
    run. *)
Lemma while_loop_reaches (silentMode : bool) (k : nat)
  (s s' : Simulation) (nextPrint nextPrint' : N) :
  reaches runNextEvent periodicOutput silentMode k s nextPrint s' nextPrint' ->
  forall fuel : nat,
    loop (k + fuel) silentMode s nextPrint
    = mkRun (k + events (loop fuel silentMode s' nextPrint'))
            (ending (loop fuel silentMode s' nextPrint')).
Proof.
  induction 1 as [s np | k s s1 s2 np np1 np2 Hc Hb Hr IH]; intros fuel.
  - cbn [Nat.add]. destruct (loop fuel silentMode s np). reflexivity.
  - cbn [Nat.add]. rewrite while_loop_step by exact Hc.
    unfold body. rewrite Hb, IH. reflexivity.
Qed.

Lemma foreach_periodicOutput_counters (plugins : list OutputPlugin) :
  plugins_keep_counters periodicOutput ->
  forall s s' : Simulation,
    foreach_periodicOutput periodicOutput plugins s = Returns s' ->
    eventCount s' = eventCount s /\ endEventCount s' = endEventCount s.
Proof.
  intros Hk. induction plugins as [| Ptr rest IH]; intros s s' H;
    cbn [foreach_periodicOutput] in H.
  - injection H as H. subst s'. split; reflexivity.
  - destruct (periodicOutput Ptr s) as [s1 | s1 e] eqn:Hp; [| discriminate H].
    destruct (Hk Ptr s s1 Hp) as [H1 H2].
    destruct (IH s1 s' H) as [H3 H4]. split; congruence.
Qed.

(** An iteration whose event returns in a state with
    [endEventCount <= eventCount] is the last one. *)
Lemma last_iteration (fuel : nat) (silentMode : bool) (s s2 : Simulation)
  (nextPrint : N) :
  plugins_keep_counters periodicOutput ->
  (eventCount s <? endEventCount s) = true ->
  runNextEvent s = Returns s2 ->
  endEventCount s2 <= eventCount s2 ->
  events (loop (S fuel) silentMode s nextPrint) = 1%nat
  /\ ending (loop (S fuel) silentMode s nextPrint) <> OutOfFuel.
Proof.
  intros Hk Hc He Hdone. rewrite while_loop_step by exact Hc.
  unfold body, try_block. rewrite He.
  destruct ((nextPrint <=? eventCount s2) && negb silentMode
            && negb (List.length (outputPlugins s2) =? 0)%nat).
  - destruct (foreach_periodicOutput periodicOutput (outputPlugins s2) s2)
      as [s3 | s3 e] eqn:Hf.
    + destruct (foreach_periodicOutput_counters _ Hk _ _ Hf) as [H1 H2].
      rewrite while_loop_exit by (apply N.ltb_ge; lia).
      split; [reflexivity | discriminate].
    + split; [reflexivity | discriminate].
  - rewrite while_loop_exit by (apply N.ltb_ge; lia).
    split; [reflexivity | discriminate].
Qed.
End LoopFacts.

Section RunFacts.
Variable M_throw : string -> cxx_exception.
Variable runNextEvent : Simulation -> completion.
Variable periodicOutput : OutputPlugin -> Simulation -> completion.

(** A run that passes [k] iterations and then stands at the loop test in
    state [s]: what the loop does from [s] is what the run does, [k]
    events later. *)
Lemma runSimulation_reaches (silentMode : bool) (k fuel : nat)
  (s0 s : Simulation) (nextPrint : N) :
  bad_state s0 = false ->
  reaches runNextEvent periodicOutput silentMode k
          (fst (enters s0)) (snd (enters s0)) s nextPrint ->
  runSimulation M_throw runNextEvent periodicOutput (k + fuel) silentMode s0
  = mkRun
      (k + events (while_loop M_throw runNextEvent periodicOutput
                              fuel silentMode s nextPrint))
      (ending (while_loop M_throw runNextEvent periodicOutput
                          fuel silentMode s nextPrint)).
Proof.
  intros Hs Hr. unfold runSimulation. rewrite Hs.
  destruct (enters s0) as [s1 np1]. cbn [fst snd] in Hr.
  apply while_loop_reaches. exact Hr.
Qed.
End RunFacts.

(** ** The claims on [runSimulation] *)

(** C7: once [simShutdown] has been invoked the loop of [runSimulation]
    executes no further event.  [simShutdown] is invoked in some state [s1];
    the event executing at that moment, if there is one, completes, and the
    run, [k] events after its start, stands at the loop test in state [s3],
    where [endEventCount] is as [simShutdown] set it and [eventCount] has not
    gone back.  Then the loop test fails and the run ends there, in [s3],
    with these [k] events, whatever number of iterations it was allowed. *)
Theorem simShutdown_stops_the_run
  (M_throw : string -> cxx_exception)
  (runNextEvent : Simulation -> completion)
  (periodicOutput : OutputPlugin -> Simulation -> completion)
  (silentMode : bool) (k fuel : nat) (s0 s1 s3 : Simulation) (nextPrint3 : N) :
  bad_state s0 = false ->
  reaches runNextEvent periodicOutput silentMode k
          (fst (enters s0)) (snd (enters s0)) s3 nextPrint3 ->
  endEventCount s3 = endEventCount (simShutdown s1) ->
  eventCount s1 <= eventCount s3 ->
  (eventCount s3 <? endEventCount s3) = false
  /\ runSimulation M_throw runNextEvent periodicOutput (k + fuel) silentMode s0
     = mkRun k (Finished s3).
Proof.
  intros Hs Hr Hend Hcount.
  assert (Hstop : (eventCount s3 <? endEventCount s3) = false).
  { apply N.ltb_ge. rewrite Hend. cbn [simShutdown endEventCount]. exact Hcount. }
  split; [exact Hstop |].
  rewrite (runSimulation_reaches M_throw runNextEvent periodicOutput
             silentMode k fuel s0 s3 nextPrint3 Hs Hr).
  rewrite while_loop_exit by exact Hstop.
  cbn [events ending]. f_equal. lia.
Qed.

Lemma simShutdown_stops_the_run_witness :
  runSimulation std_exception (scheduler_shutdown_at 6) quiet_plugin
                (2 + 5) false (sample_simulation 0)
  = mkRun 2
      (Finished (mkSimulation PRODUCTION 7 6 6 1 0%R [0%nat])).
Proof.
  refine (proj2 (simShutdown_stops_the_run
            std_exception (scheduler_shutdown_at 6) quiet_plugin
            false 2 5 (sample_simulation 0)
            (mkSimulation PRODUCTION 6 10 0 1 0%R [0%nat])
            (mkSimulation PRODUCTION 7 6 6 1 0%R [0%nat])
            8 _ _ _ _)).
  - reflexivity.
  - eapply reaches_step; [reflexivity | reflexivity |].
    eapply reaches_step; [reflexivity | reflexivity |].
    apply reaches_here.
  - reflexivity.
  - cbn. lia.
Defined.

(** C8 as stated does not hold: the diagnostic of an aborted run does not
    give the time of the failing event.  Two runs whose first event fails
    with the same message at the same event count, at the system times 1 and
    2, are aborted with one and the same exception, so that nothing computed
    from the exception is the event time in both.  And an exception that is
    not a [std::exception] leaves the run as it is, with no diagnostic. *)
Lemma diagnostic_omits_event_time :
  ending (runSimulation std_exception (scheduler_failing_at 5 "boom")
                        quiet_plugin 1 false (sample_simulation 1))
  = Aborted (set_status PRODUCTION (sample_simulation 1))
            (std_exception (newline ++ "While executing event 5boom"))
  /\ ending (runSimulation std_exception (scheduler_failing_at 5 "boom")
                           quiet_plugin 1 false (sample_simulation 2))
     = Aborted (set_status PRODUCTION (sample_simulation 2))
               (std_exception (newline ++ "While executing event 5boom"))
  /\ dSysTime (set_status PRODUCTION (sample_simulation 1))
     <> dSysTime (set_status PRODUCTION (sample_simulation 2))
  /\ ~ (exists time_of : cxx_exception -> R,
          forall t : R,
            match ending (runSimulation std_exception
                            (scheduler_failing_at 5 "boom") quiet_plugin
                            1 false (sample_simulation t)) with
            | Aborted s e => time_of e = dSysTime s
            | _ => False
            end)
  /\ ending (runSimulation std_exception (scheduler_throwing other_exception)
                           quiet_plugin 1 false (sample_simulation 1))
     = Aborted (set_status PRODUCTION (sample_simulation 1)) other_exception.
Proof.
  split; [reflexivity | split; [reflexivity | split; [| split]]].
  - cbn. lra.
  - intros [time_of H].
    pose proof (H 1%R) as H1. pose proof (H 2%R) as H2.
    cbn in H1, H2. rewrite H1 in H2. lra.
  - reflexivity.
Qed.

(** C8, amended: when the event executed in an iteration of [runSimulation]
    throws, the run is aborted.  For a [std::exception] the exception that
    leaves the run is the one [M_throw] builds from the text "While
    executing event", the event count at that moment and the message of the
    exception caught; an exception of another type leaves the run as it is.
    In both cases the run has then called [runNextEvent] once for each of
    the [k] events that passed and once for the failing one: no retry, no
    later event. *)
Theorem failing_event_aborts_the_run
  (M_throw : string -> cxx_exception)
  (runNextEvent : Simulation -> completion)
  (periodicOutput : OutputPlugin -> Simulation -> completion)
  (silentMode : bool) (k fuel : nat) (s0 s s' : Simulation)
  (nextPrint : N) (e : cxx_exception) :
  bad_state s0 = false ->
  reaches runNextEvent periodicOutput silentMode k
          (fst (enters s0)) (snd (enters s0)) s nextPrint ->
  (eventCount s <? endEventCount s) = true ->
  runNextEvent s = Throws s' e ->
  runSimulation M_throw runNextEvent periodicOutput (k + S fuel) silentMode s0
  = mkRun (S k)
      (Aborted s'
         match e with
         | std_exception what =>
             M_throw (newline ++ "While executing event "
                      ++ show (eventCount s') ++ what)%string
         | other_exception => other_exception
         end).
Proof.
  intros Hs Hr Hc He.
  rewrite (runSimulation_reaches M_throw runNextEvent periodicOutput
             silentMode k (S fuel) s0 s nextPrint Hs Hr).
  rewrite while_loop_step by exact Hc.
  unfold try_block. rewrite He.
  cbn [events ending]. unfold catch_block. f_equal. lia.
Qed.

Lemma failing_event_aborts_the_run_witness :
  runSimulation std_exception (scheduler_failing_at 6 "boom") quiet_plugin
                (1 + S 3) false (sample_simulation 0)
  = mkRun 2
      (Aborted (mkSimulation PRODUCTION 6 10 0 1 0%R [0%nat])
         (std_exception (newline ++ "While executing event "
                         ++ show (eventCount (mkSimulation PRODUCTION 6 10 0 1 0%R [0%nat]))
                         ++ "boom"))).
Proof.
  refine (failing_event_aborts_the_run
            std_exception (scheduler_failing_at 6 "boom") quiet_plugin
            false 1 3 (sample_simulation 0)
            (mkSimulation PRODUCTION 6 10 0 1 0%R [0%nat])
            (mkSimulation PRODUCTION 6 10 0 1 0%R [0%nat])
            7 (std_exception "boom") _ _ _ _).
  - reflexivity.
  - eapply reaches_step; [reflexivity | reflexivity | apply reaches_here].
  - reflexivity.
  - reflexivity.
Defined.

(** * Further properties of the polynomial class *)

Open Scope R_scope.

(** ** Writes and counting loops *)

Lemma coef_beyond (Order : nat) (f : Polynomial Order) (i : nat) :
  (Order < i)%nat -> f.[i] = 0.
Proof.
  intros H. unfold coef. apply nth_overflow. rewrite (coeffs_size f). lia.
Qed.

Lemma nth_write (a : list R) (i k : nat) (v : R) :
  (i < List.length a)%nat ->
  nth k (firstn i a ++ v :: skipn (S i) a) 0
  = if (k =? i)%nat then v else nth k a 0.
Proof.
  intros Hi.
  assert (Hlen : List.length (firstn i a) = i) by (rewrite length_firstn; lia).
  destruct (Nat.eqb_spec k i) as [-> | Hne].
  - rewrite app_nth2 by lia. rewrite Hlen, Nat.sub_diag. reflexivity.
  - destruct (Nat.lt_ge_cases k i) as [Hlt | Hge].
    + rewrite app_nth1 by lia. rewrite nth_firstn.
      apply Nat.ltb_lt in Hlt. rewrite Hlt. reflexivity.
    + rewrite app_nth2 by lia. rewrite Hlen.
      replace (k - i)%nat with (S (k - S i)) by lia. cbn [nth].
      rewrite nth_skipn. f_equal. lia.
Qed.

Lemma set_coef_in_bounds (Order : nat) (f : Polynomial Order) (i : nat) (v : R) :
  (i <= Order)%nat ->
  exists h : Polynomial Order,
    set_coef f i v = InBounds h
    /\ forall k : nat, h.[k] = if (k =? i)%nat then v else f.[k].
Proof.
  intros Hi. unfold set_coef.
  destruct (lt_dec i (S Order)) as [Hlt | Hge]; [| lia].
  eexists. split; [reflexivity |].
  intros k. unfold coef. cbn [coeffs]. apply nth_write.
  rewrite (coeffs_size f). exact Hlt.
Qed.

Lemma set_coef_out_of_bounds (Order : nat) (f : Polynomial Order) (i : nat) (v : R) :
  (Order < i)%nat -> set_coef f i v = OutOfBounds i (S Order).
Proof.
  intros Hi. unfold set_coef.
  destruct (lt_dec i (S Order)) as [Hlt | Hge]; [lia | reflexivity].
Qed.

Lemma for_range_app (A : Type) (body : nat -> A -> access A) (l1 l2 : list nat) :
  forall a : A,
    for_range (l1 ++ l2) body a
    = match for_range l1 body a with
      | InBounds a' => for_range l2 body a'
      | OutOfBounds j n => OutOfBounds j n
      end.
Proof.
  induction l1 as [| i rest IH]; intros a; cbn [for_range app].
  - reflexivity.
  - destruct (body i a) as [a' | j n]; [apply IH | reflexivity].
Qed.

(** A loop over [start .. start+len-1] whose iteration [i] replaces the
    coefficient [i] by a value computed from [i] and the old coefficient. *)
Lemma for_range_pointwise (Order : nat) (g : nat -> R -> R) (start len : nat) :
  (start + len <= S Order)%nat ->
  forall f : Polynomial Order,
  exists h : Polynomial Order,
    for_range (seq start len) (fun i r => set_coef r i (g i r.[i])) f = InBounds h
    /\ forall k : nat,
         h.[k] = if ((start <=? k) && (k <? start + len))%nat then g k f.[k] else f.[k].
Proof.
  induction len as [| len IH]; intros Hb f.
  - exists f. split; [reflexivity |].
    intros k. destruct (start <=? k)%nat eqn:E1; cbn [andb]; [| reflexivity].
    apply Nat.leb_le in E1.
    destruct (Nat.ltb_spec k (start + 0)); [lia | reflexivity].
  - destruct (IH ltac:(lia) f) as [h1 [H1 C1]].
    destruct (set_coef_in_bounds Order h1 (start + len)%nat
               (g (start + len)%nat h1.[(start + len)%nat]))
      as [h2 [H2 C2]]; [lia |].
    exists h2. split.
    + rewrite seq_S, for_range_app, H1. cbn [for_range]. rewrite H2. reflexivity.
    + intros k. rewrite C2.
      destruct (Nat.eqb_spec k (start + len)) as [-> | Hne].
      * rewrite C1.
        replace ((start <=? start + len) && (start + len <? start + S len))%nat
          with true
          by (symmetry; apply andb_true_iff; split;
              [apply Nat.leb_le | apply Nat.ltb_lt]; lia).
        replace ((start <=? start + len) && (start + len <? start + len))%nat
          with false
          by (symmetry; apply andb_false_iff; right; apply Nat.ltb_ge; lia).
        reflexivity.
      * rewrite C1.
        destruct (start <=? k)%nat eqn:E1; cbn [andb]; [| reflexivity].
        destruct (Nat.ltb_spec k (start + len));
          destruct (Nat.ltb_spec k (start + S len)); try reflexivity; lia.
Qed.

(** ** Evaluation as a sum of monomials *)

Lemma horner_sum (Order : nat) (f : Polynomial Order) (n : nat) (x sum : R) :
  horner f (S n) x sum
  = sum * x ^ S n + sum_f_R0 (fun i => f.[i] * x ^ i) n.
Proof.
  revert sum. induction n as [| n IH]; intros sum.
  - cbn. ring.
  - change (horner f (S (S n)) x sum) with (horner f (S n) x (sum * x + f.[S n])).
    rewrite IH. cbn [sum_f_R0]. cbn [pow]. ring.
Qed.

Lemma sum_zero_tail (a : nat -> R) (n m : nat) :
  (forall i : nat, (n < i)%nat -> a i = 0) ->
  sum_f_R0 a (n + m) = sum_f_R0 a n.
Proof.
  intros Hz. induction m as [| m IH].
  - rewrite Nat.add_0_r. reflexivity.
  - rewrite Nat.add_succ_r. cbn [sum_f_R0]. rewrite IH, Hz by lia. ring.
Qed.

Lemma eval_sum_upto (Order : nat) (f : Polynomial Order) (x : R) (K : nat) :
  (Order <= K)%nat ->
  sum_f_R0 (fun i => f.[i] * x ^ i) K = eval f x.
Proof.
  intros HK.
  replace K with (Order + (K - Order))%nat by lia.
  rewrite sum_zero_tail.
  - unfold eval. destruct Order as [| n].
    + cbn. ring.
    + rewrite horner_sum. cbn [sum_f_R0]. ring.
  - intros i Hi. rewrite coef_beyond by exact Hi. ring.
Qed.

Lemma sum_linear (a b : R) (u v w : nat -> R) (n : nat) :
  (forall i : nat, (i <= n)%nat -> w i = a * u i + b * v i) ->
  sum_f_R0 w n = a * sum_f_R0 u n + b * sum_f_R0 v n.
Proof.
  induction n as [| n IH]; intros H; cbn [sum_f_R0].
  - apply H. lia.
  - rewrite IH by (intros i Hi; apply H; lia). rewrite (H (S n)) by lia. ring.
Qed.

Lemma sum_constant_term (c : R) (u w : nat -> R) (n : nat) :
  w 0%nat = u 0%nat + c ->
  (forall i : nat, (0 < i <= n)%nat -> w i = u i) ->
  sum_f_R0 w n = sum_f_R0 u n + c.
Proof.
  intros H0 H. induction n as [| n IH]; cbn [sum_f_R0].
  - exact H0.
  - rewrite IH by (intros i Hi; apply H; lia). rewrite (H (S n)) by lia. ring.
Qed.

(** Polynomials of any orders whose coefficients are related linearly
    evaluate accordingly. *)
Lemma eval_linear (O1 O2 O3 : nat) (f : Polynomial O1) (g : Polynomial O2)
  (h : Polynomial O3) (a b x : R) :
  (forall i : nat, h.[i] = a * f.[i] + b * g.[i]) ->
  eval h x = a * eval f x + b * eval g x.
Proof.
  intros H.
  set (K := (O1 + O2 + O3)%nat).
  rewrite <- (eval_sum_upto O1 f x K), <- (eval_sum_upto O2 g x K),
    <- (eval_sum_upto O3 h x K) by (unfold K; lia).
  apply sum_linear. intros i _. rewrite H. ring.
Qed.

Lemma eval_constant_term (Order : nat) (f h : Polynomial Order) (c x : R) :
  (forall k : nat, h.[k] = if (k =? 0)%nat then f.[0] + c else f.[k]) ->
  eval h x = eval f x + c.
Proof.
  intros H.
  rewrite <- (eval_sum_upto Order f x Order), <- (eval_sum_upto Order h x Order) by lia.
  apply sum_constant_term.
  - rewrite H. cbn. ring.
  - intros i Hi. rewrite H.
    destruct (Nat.eqb_spec i 0); [lia | reflexivity].
Qed.

Lemma default_Polynomial_coef (Order i : nat) : (default_Polynomial Order).[i] = 0.
Proof.
  unfold coef, default_Polynomial. cbn [coeffs].
  destruct (Nat.lt_ge_cases i (S Order)) as [Hlt | Hge].
  - apply nth_repeat_lt. exact Hlt.
  - apply nth_overflow. rewrite repeat_length. exact Hge.
Qed.

(** A loop that fills the whole array with values that do not depend on
    what the array held. *)
Lemma for_range_fill (Order : nat) (val : nat -> R) (f : Polynomial Order) :
  exists h : Polynomial Order,
    for_range (seq 0 (S Order)) (fun i r => set_coef r i (val i)) f = InBounds h
    /\ forall k : nat, (k <= Order)%nat -> h.[k] = val k.
Proof.
  destruct (for_range_pointwise Order (fun i _ => val i) 0 (S Order) ltac:(lia) f)
    as [h [Hh Ch]].
  exists h. split; [exact Hh |].
  intros k Hk. rewrite Ch. cbn [Nat.leb andb Nat.add].
  destruct (Nat.ltb_spec k (S Order)); [reflexivity | lia].
Qed.

(** ** Evaluation of a polynomial and of the results of the operators *)

(** X1: [operator()] (Horner's scheme from the highest coefficient down)
    returns the sum of the monomials [c_i x^i], [i = 0 .. Order], for every
    order. *)
Theorem eval_monomial_sum (Order : nat) (f : Polynomial Order) (x : R) :
  eval f x = sum_f_R0 (fun i => f.[i] * x ^ i) Order.
Proof. symmetry. apply eval_sum_upto. lia. Qed.

Lemma opp_spec (Order : nat) (f : Polynomial Order) :
  exists h : Polynomial Order,
    opp f = InBounds h
    /\ (forall i : nat, h.[i] = - f.[i])
    /\ forall x : R, eval h x = - eval f x.
Proof.
  destruct (for_range_fill Order (fun i => - f.[i]) (default_Polynomial Order))
    as [h [Hh Ch]].
  assert (C : forall i : nat, h.[i] = - f.[i]).
  { intros i. destruct (Nat.le_gt_cases i Order) as [Hi | Hi].
    - apply Ch. exact Hi.
    - rewrite !coef_beyond by exact Hi. ring. }
  exists h. split; [exact Hh | split; [exact C |]].
  intros x. rewrite (eval_linear _ _ _ f f h (-1) 0 x); [ring |].
  intros i. rewrite C. ring.
Qed.

Lemma mul_const_spec (Order : nat) (f : Polynomial Order) (r : R) :
  exists h : Polynomial Order,
    mul_const f r = InBounds h
    /\ (forall i : nat, h.[i] = f.[i] * r)
    /\ forall x : R, eval h x = eval f x * r.
Proof.
  destruct (for_range_fill Order (fun i => f.[i] * r) (default_Polynomial Order))
    as [h [Hh Ch]].
  assert (C : forall i : nat, h.[i] = f.[i] * r).
  { intros i. destruct (Nat.le_gt_cases i Order) as [Hi | Hi].
    - apply Ch. exact Hi.
    - rewrite !coef_beyond by exact Hi. ring. }
  exists h. split; [exact Hh | split; [exact C |]].
  intros x. rewrite (eval_linear _ _ _ f f h r 0 x); [ring |].
  intros i. rewrite C. ring.
Qed.

(** X2: unary minus and the product with a constant stay within the array;
    the result of [-f] has the coefficients [-c_i] and evaluates to [-f(x)],
    the result of [f * r] (and [r * f]) has the coefficients [c_i r] and
    evaluates to [f(x) r]. *)
Theorem opp_mul_const_eval (Order : nat) (f : Polynomial Order) (r : R) :
  (exists h : Polynomial Order,
     opp f = InBounds h
     /\ (forall i : nat, h.[i] = - f.[i])
     /\ forall x : R, eval h x = - eval f x)
  /\ (exists h : Polynomial Order,
        mul_const f r = InBounds h
        /\ (forall i : nat, h.[i] = f.[i] * r)
        /\ forall x : R, eval h x = eval f x * r).
Proof.
  split; [apply opp_spec | apply mul_const_spec].
Qed.

(** ** Results constructed from an operand *)

Lemma max_order_left (M N : nat) : (N <= M)%nat -> max_order M N = M.
Proof.
  intros H. unfold max_order. destruct (Nat.ltb_spec N M); [reflexivity | lia].
Qed.

Lemma max_order_right (M N : nat) : (M < N)%nat -> max_order M N = N.
Proof.
  intros H. unfold max_order. destruct (Nat.ltb_spec N M); [lia | reflexivity].
Qed.

Lemma construct_from_copy (M Order : nat) (poly : Polynomial M)
  (base : Polynomial Order) :
  M = Order ->
  exists retval : Polynomial Order,
    construct_from true Order poly base = InBounds retval
    /\ forall i : nat, retval.[i] = poly.[i].
Proof.
  intros E. unfold construct_from.
  destruct (Nat.eq_dec M Order) as [e | n]; [| contradiction].
  eexists. split; [reflexivity |]. intros i. reflexivity.
Qed.

(** The promotion constructor on an array of fixed size ends like
    [promote]: with the write at index [Order + 1]. *)
Lemma promote_sized_out_of_bounds (N Order : nat) (poly : Polynomial N)
  (base : Polynomial Order) :
  (N <= Order)%nat ->
  promote_sized Order poly base = OutOfBounds (S Order) (S Order).
Proof.
  intros HN. unfold promote_sized.
  destruct (for_range_pointwise Order (fun i _ => poly.[i]) 0 (S N) ltac:(lia) base)
    as [r1 [H1 _]].
  rewrite H1.
  replace (S Order - N)%nat with (S (Order - N)) by lia.
  rewrite seq_S, for_range_app.
  destruct (for_range_pointwise Order (fun _ _ => 0) (S N) (Order - N) ltac:(lia) r1)
    as [r2 [H2 _]].
  rewrite H2. cbn [for_range].
  replace (S N + (Order - N))%nat with (S Order) by lia.
  rewrite set_coef_out_of_bounds by lia. reflexivity.
Qed.

(** A lower order is promoted whatever the coefficient types. *)
Lemma construct_from_promotes (same_type : bool) (M Order : nat)
  (poly : Polynomial M) (base : Polynomial Order) :
  (M < Order)%nat ->
  construct_from same_type Order poly base = OutOfBounds (S Order) (S Order).
Proof.
  intros H. unfold construct_from.
  destruct (Nat.eq_dec M Order) as [e | n]; [lia |].
  apply promote_sized_out_of_bounds. lia.
Qed.

(** So is an equal order with another coefficient type. *)
Lemma construct_from_converts (M Order : nat) (poly : Polynomial M)
  (base : Polynomial Order) :
  (M <= Order)%nat ->
  construct_from false Order poly base = OutOfBounds (S Order) (S Order).
Proof.
  intros H. unfold construct_from.
  destruct (Nat.eq_dec M Order) as [e | n];
    apply promote_sized_out_of_bounds; exact H.
Qed.

(** X3: the sums and differences with a constant.  When the result has the
    coefficient type of the polynomial it is constructed from (as with
    [double] coefficients and a [double] constant), [f + r], [f - r] and
    [r - f] change the constant term only, stay within the array and
    evaluate to [f(x) + r], [f(x) - r] and [r - f(x)].  With another result
    type ([Polynomial<1, float>] and a [double] constant) the result is
    built by the promotion constructor, which writes the index [N + 1] of an
    array of [N + 1] elements. *)
Theorem const_operators_eval (Order : nat) (f base : Polynomial Order) (r : R) :
  (exists h : Polynomial Order,
     add_const true f r base = InBounds h
     /\ forall x : R, eval h x = eval f x + r)
  /\ (exists h : Polynomial Order,
        sub_const true f r base = InBounds h
        /\ forall x : R, eval h x = eval f x - r)
  /\ (exists h : Polynomial Order,
        const_sub true r f base = InBounds h
        /\ forall x : R, eval h x = r - eval f x)
  /\ add_const false f r base = OutOfBounds (S Order) (S Order)
  /\ sub_const false f r base = OutOfBounds (S Order) (S Order)
  /\ const_sub false r f base = OutOfBounds (S Order) (S Order).
Proof.
  destruct (construct_from_copy Order Order f base eq_refl) as [c [Hc Cc]].
  split; [| split; [| split; [| split; [| split]]]].
  - destruct (set_coef_in_bounds Order c 0 (c.[0] + r) ltac:(lia)) as [h [Hh Ch]].
    exists h. split.
    + unfold add_const. rewrite Hc. exact Hh.
    + intros x. rewrite (eval_constant_term Order c h r x Ch).
      rewrite (eval_linear _ _ _ f f c 1 0 x); [ring |].
      intros i. rewrite Cc. ring.
  - destruct (set_coef_in_bounds Order c 0 (c.[0] - r) ltac:(lia)) as [h [Hh Ch]].
    exists h. split.
    + unfold sub_const. rewrite Hc. exact Hh.
    + intros x. rewrite (eval_constant_term Order c h (- r) x Ch).
      rewrite (eval_linear _ _ _ f f c 1 0 x); [ring |].
      intros i. rewrite Cc. ring.
  - destruct (opp_spec Order f) as [g [Hg [Cg Eg]]].
    destruct (construct_from_copy Order Order g base eq_refl) as [c' [Hc' Cc']].
    destruct (set_coef_in_bounds Order c' 0 (c'.[0] + r) ltac:(lia)) as [h [Hh Ch]].
    exists h. split.
    + unfold const_sub. rewrite Hg, Hc'. exact Hh.
    + intros x. rewrite (eval_constant_term Order c' h r x Ch).
      rewrite (eval_linear _ _ _ g g c' 1 0 x) by (intros i; rewrite Cc'; ring).
      rewrite Eg. ring.
  - unfold add_const. rewrite construct_from_converts by lia. reflexivity.
  - unfold sub_const. rewrite construct_from_converts by lia. reflexivity.
  - destruct (opp_spec Order f) as [g [Hg _]].
    unfold const_sub. rewrite Hg, construct_from_converts by lia. reflexivity.
Qed.

(** ** Sums and differences of two polynomials *)

(** The loop [retval[i] op= poly2[i]], [i = 0 .. N], on a [retval] with the
    coefficients of [poly1]. *)
Lemma combine_loop (K M N : nat) (op : R -> R -> R)
  (poly1 : Polynomial M) (poly2 : Polynomial N) (retval : Polynomial K) :
  (N <= K)%nat ->
  (forall i : nat, retval.[i] = poly1.[i]) ->
  (forall a : R, op a 0 = a) ->
  exists h : Polynomial K,
    for_range (seq 0 (S N)) (fun i r => set_coef r i (op r.[i] poly2.[i])) retval
    = InBounds h
    /\ forall i : nat, h.[i] = op poly1.[i] poly2.[i].
Proof.
  intros HN Hc Hop.
  destruct (for_range_pointwise K (fun i c => op c poly2.[i]) 0 (S N) ltac:(lia) retval)
    as [h [Hh Ch]].
  exists h. split; [exact Hh |].
  intros i. rewrite Ch, Hc. cbn [Nat.leb andb Nat.add].
  destruct (Nat.ltb_spec i (S N)); [reflexivity |].
  rewrite (coef_beyond N poly2 i) by lia. rewrite Hop. reflexivity.
Qed.

(** X4: when the order of the right operand does not exceed the order of the
    left one and the result has the coefficient type of the left operand (as
    with two [double] polynomials), [poly1 + poly2] and [poly1 - poly2] are
    built from a copy of [poly1], stay within the array, have the
    coefficients [a_i + b_i] and [a_i - b_i] (a coefficient past the order
    of an operand counting as zero) and evaluate to [poly1(x) + poly2(x)]
    and [poly1(x) - poly2(x)].  With another result type they are built by
    the promotion constructor, which writes the index [M + 1] of an array of
    [M + 1] elements. *)
Theorem add_sub_eval (M N : nat) (poly1 : Polynomial M) (poly2 : Polynomial N)
  (base : Polynomial (max_order M N)) :
  (N <= M)%nat ->
  (exists h : Polynomial (max_order M N),
     add true poly1 poly2 base = InBounds h
     /\ (forall i : nat, h.[i] = poly1.[i] + poly2.[i])
     /\ forall x : R, eval h x = eval poly1 x + eval poly2 x)
  /\ (exists h : Polynomial (max_order M N),
        sub true poly1 poly2 base = InBounds h
        /\ (forall i : nat, h.[i] = poly1.[i] - poly2.[i])
        /\ forall x : R, eval h x = eval poly1 x - eval poly2 x)
  /\ add false poly1 poly2 base = OutOfBounds (S M) (S M)
  /\ sub false poly1 poly2 base = OutOfBounds (S M) (S M).
Proof.
  intros HNM.
  pose proof (max_order_left M N HNM) as HK.
  destruct (construct_from_copy M (max_order M N) poly1 base (eq_sym HK))
    as [retval [Hr Cr]].
  assert (Hconv : construct_from false (max_order M N) poly1 base
                  = OutOfBounds (S M) (S M)).
  { rewrite construct_from_converts by lia. rewrite HK. reflexivity. }
  split; [| split; [| split]].
  - destruct (combine_loop (max_order M N) M N Rplus poly1 poly2 retval
                ltac:(lia) Cr ltac:(intros; ring)) as [h [Hh Ch]].
    exists h. split; [| split].
    + unfold add. rewrite Hr. exact Hh.
    + exact Ch.
    + intros x. rewrite (eval_linear _ _ _ poly1 poly2 h 1 1 x); [ring |].
      intros i. rewrite Ch. ring.
  - destruct (combine_loop (max_order M N) M N Rminus poly1 poly2 retval
                ltac:(lia) Cr ltac:(intros; ring)) as [h [Hh Ch]].
    exists h. split; [| split].
    + unfold sub. rewrite Hr. exact Hh.
    + exact Ch.
    + intros x. rewrite (eval_linear _ _ _ poly1 poly2 h 1 (-1) x); [ring |].
      intros i. rewrite Ch. ring.
  - unfold add. rewrite Hconv. reflexivity.
  - unfold sub. rewrite Hconv. reflexivity.
Qed.

Lemma add_sub_eval_witness :
  exists h : Polynomial (max_order 2 1),
    add true (Polynomial2 2 (-1) 1) (Polynomial1 0 1)
        (default_Polynomial (max_order 2 1)) = InBounds h
    /\ forall x : R,
         eval h x = eval (Polynomial2 2 (-1) 1) x + eval (Polynomial1 0 1) x.
Proof.
  assert (H : (1 <= 2)%nat) by lia.
  destruct (proj1 (add_sub_eval 2 1 (Polynomial2 2 (-1) 1) (Polynomial1 0 1)
                     (default_Polynomial (max_order 2 1)) H))
    as [h [Hh [_ Eh]]].
  exists h. split; [exact Hh | exact Eh].
Defined.

(** X5: when the order of the left operand is lower than the order of the
    right one, [poly1 + poly2] and [poly1 - poly2] build their result with
    the promotion constructor, whatever the coefficient types, and so write
    the index [N + 1] of an array of [N + 1] elements. *)
Theorem add_sub_promotion_out_of_bounds (same_type : bool) (M N : nat)
  (poly1 : Polynomial M) (poly2 : Polynomial N)
  (base : Polynomial (max_order M N)) :
  (M < N)%nat ->
  add same_type poly1 poly2 base = OutOfBounds (S N) (S N)
  /\ sub same_type poly1 poly2 base = OutOfBounds (S N) (S N).
Proof.
  intros H. pose proof (max_order_right M N H) as HK.
  assert (Hc : construct_from same_type (max_order M N) poly1 base
               = OutOfBounds (S N) (S N)).
  { rewrite construct_from_promotes by lia. rewrite HK. reflexivity. }
  unfold add, sub. rewrite Hc. split; reflexivity.
Qed.

Lemma add_sub_promotion_out_of_bounds_witness :
  add true (Polynomial1 2 (-1)) (Polynomial2 0 0 1)
      (default_Polynomial (max_order 1 2)) = OutOfBounds 3 3.
Proof.
  assert (H : (1 < 2)%nat) by lia.
  exact (proj1 (add_sub_promotion_out_of_bounds true 1 2 (Polynomial1 2 (-1))
                  (Polynomial2 0 0 1) (default_Polynomial (max_order 1 2)) H)).
Defined.

(** ** The product of two polynomials *)

(** A loop whose iteration [i] changes the coefficient [i] only, to a value
    computed from [i] and the old coefficient. *)
Lemma for_range_spec (Order : nat)
  (body : nat -> Polynomial Order -> access (Polynomial Order))
  (g : nat -> R -> R) (start len : nat) :
  (forall (i : nat) (r : Polynomial Order),
      (start <= i < start + len)%nat ->
      exists r' : Polynomial Order,
        body i r = InBounds r'
        /\ forall k : nat, r'.[k] = if (k =? i)%nat then g i r.[i] else r.[k]) ->
  forall f : Polynomial Order,
  exists h : Polynomial Order,
    for_range (seq start len) body f = InBounds h
    /\ forall k : nat,
         h.[k] = if ((start <=? k) && (k <? start + len))%nat then g k f.[k] else f.[k].
Proof.
  induction len as [| len IH]; intros Hbody f.
  - exists f. split; [reflexivity |].
    intros k. destruct (start <=? k)%nat eqn:E1; cbn [andb]; [| reflexivity].
    apply Nat.leb_le in E1.
    destruct (Nat.ltb_spec k (start + 0)); [lia | reflexivity].
  - destruct (IH ltac:(intros i r Hi; apply Hbody; lia) f) as [h1 [H1 C1]].
    destruct (Hbody (start + len)%nat h1 ltac:(lia)) as [h2 [H2 C2]].
    exists h2. split.
    + rewrite seq_S, for_range_app, H1. cbn [for_range]. rewrite H2. reflexivity.
    + intros k. rewrite C2.
      destruct (Nat.eqb_spec k (start + len)) as [-> | Hne].
      * rewrite C1.
        replace ((start <=? start + len) && (start + len <? start + S len))%nat
          with true
          by (symmetry; apply andb_true_iff; split;
              [apply Nat.leb_le | apply Nat.ltb_lt]; lia).
        replace ((start <=? start + len) && (start + len <? start + len))%nat
          with false
          by (symmetry; apply andb_false_iff; right; apply Nat.ltb_ge; lia).
        reflexivity.
      * rewrite C1.
        destruct (start <=? k)%nat eqn:E1; cbn [andb]; [| reflexivity].
        destruct (Nat.ltb_spec k (start + len));
          destruct (Nat.ltb_spec k (start + S len)); try reflexivity; lia.
Qed.

(** The loop [retval[i] += t(j)], [j = start .. start + n]. *)
Lemma accumulate_loop (Order i : nat) (t : nat -> R) (start n : nat) :
  (i <= Order)%nat ->
  forall r : Polynomial Order,
  exists h : Polynomial Order,
    for_range (seq start (S n)) (fun j r => set_coef r i (r.[i] + t j)) r
    = InBounds h
    /\ forall k : nat,
         h.[k] = if (k =? i)%nat
                 then r.[i] + sum_f_R0 (fun j => t (start + j)%nat) n
                 else r.[k].
Proof.
  intros Hi. induction n as [| n IH]; intros r.
  - destruct (set_coef_in_bounds Order r i (r.[i] + t start) Hi) as [h [Hh Ch]].
    exists h. split.
    + cbn [seq for_range]. rewrite Hh. reflexivity.
    + intros k. rewrite Ch. cbn [sum_f_R0]. rewrite Nat.add_0_r. reflexivity.
  - destruct (IH r) as [h1 [H1 C1]].
    destruct (set_coef_in_bounds Order h1 i (h1.[i] + t (start + S n)%nat) Hi)
      as [h2 [H2 C2]].
    exists h2. split.
    + rewrite seq_S, for_range_app, H1. cbn [for_range]. rewrite H2. reflexivity.
    + intros k. rewrite C2.
      destruct (Nat.eqb_spec k i) as [-> | Hne].
      * rewrite C1, Nat.eqb_refl. cbn [sum_f_R0]. ring.
      * rewrite C1. apply Nat.eqb_neq in Hne. rewrite Hne. reflexivity.
Qed.

Lemma sum_zero_between (a : nat -> R) (n m : nat) :
  (forall i : nat, (n < i <= n + m)%nat -> a i = 0) ->
  sum_f_R0 a (n + m) = sum_f_R0 a n.
Proof.
  induction m as [| m IH]; intros Hz.
  - rewrite Nat.add_0_r. reflexivity.
  - rewrite Nat.add_succ_r. cbn [sum_f_R0].
    rewrite IH by (intros i Hi; apply Hz; lia).
    rewrite Hz by lia. ring.
Qed.

(** A sum over [0 .. n] whose terms vanish outside [lo .. hi]. *)
Lemma sum_window (a : nat -> R) (lo hi n : nat) :
  (lo <= hi <= n)%nat ->
  (forall j : nat, (j < lo)%nat -> a j = 0) ->
  (forall j : nat, (hi < j <= n)%nat -> a j = 0) ->
  sum_f_R0 (fun j => a (lo + j)%nat) (hi - lo) = sum_f_R0 a n.
Proof.
  intros [Hlo Hhi] Hbelow Habove.
  replace n with (hi + (n - hi))%nat by lia.
  rewrite (sum_zero_between a hi (n - hi))
    by (intros i Hi; apply Habove; lia).
  destruct lo as [| lo].
  - rewrite Nat.sub_0_r. apply sum_eq. intros j _. reflexivity.
  - rewrite (tech2 a lo hi) by lia.
    rewrite (sum_eq_R0 a lo) by (intros j Hj; apply Hbelow; lia).
    rewrite Rplus_0_l. reflexivity.
Qed.

Lemma mul_coefficients (M N : nat) (poly1 : Polynomial M) (poly2 : Polynomial N) :
  exists h : Polynomial (M + N),
    mul poly1 poly2 = InBounds h
    /\ forall i : nat,
         (i <= M + N)%nat ->
         h.[i] = sum_f_R0 (fun j => poly1.[j] * poly2.[(i - j)%nat]) i.
Proof.
  unfold mul.
  destruct (for_range_spec (M + N)
              (fun i retval =>
                 let j0 := if (N <? i)%nat then (i - N)%nat else 0%nat in
                 for_range (seq j0 (S (Nat.min i M) - j0))
                   (fun j retval =>
                      set_coef retval i
                        (retval.[i] + poly1.[j] * poly2.[(i - j)%nat]))
                   retval)
              (fun i c => c + sum_f_R0 (fun j => poly1.[j] * poly2.[(i - j)%nat]) i)
              0 (S (N + M))) with (f := default_Polynomial (M + N))
    as [h [Hh Ch]].
  - intros i r Hi. cbv zeta.
    set (j0 := if (N <? i)%nat then (i - N)%nat else 0%nat).
    assert (Hj0 : (j0 <= Nat.min i M)%nat).
    { unfold j0. destruct (Nat.ltb_spec N i); lia. }
    replace (S (Nat.min i M) - j0)%nat with (S (Nat.min i M - j0)) by lia.
    destruct (accumulate_loop (M + N) i
                (fun j => poly1.[j] * poly2.[(i - j)%nat])
                j0 (Nat.min i M - j0) ltac:(lia) r) as [r' [Hr' Cr']].
    exists r'. split; [exact Hr' |].
    intros k. rewrite Cr'. destruct (k =? i)%nat; [| reflexivity].
    f_equal.
    apply (sum_window (fun j => poly1.[j] * poly2.[(i - j)%nat]) j0 (Nat.min i M) i).
    + lia.
    + intros j Hj. rewrite (coef_beyond N poly2 (i - j)); [ring |].
      unfold j0 in Hj. destruct (Nat.ltb_spec N i); lia.
    + intros j Hj. rewrite (coef_beyond M poly1 j) by lia. ring.
  - exists h. split; [exact Hh |].
    intros i Hi. rewrite Ch, default_Polynomial_coef. cbn [Nat.leb andb Nat.add].
    destruct (Nat.ltb_spec i (S (N + M))); [ring | lia].
Qed.

(** The finite Cauchy product of two polynomials. *)
Lemma cauchy_product (M N : nat) (f : Polynomial M) (g : Polynomial N) (x : R) :
  sum_f_R0
    (fun i => sum_f_R0 (fun j => f.[j] * g.[(i - j)%nat]) i * x ^ i) (M + N)
  = eval f x * eval g x.
Proof.
  rewrite <- (eval_sum_upto M f x (M + N)), <- (eval_sum_upto N g x (M + N)) by lia.
  destruct (Nat.eq_dec (M + N) 0) as [E | E].
  - rewrite E. cbn [sum_f_R0 Nat.sub pow]. ring.
  - rewrite (cauchy_finite (fun i => f.[i] * x ^ i) (fun i => g.[i] * x ^ i) (M + N))
      by lia.
    rewrite (sum_eq_R0
               (fun k =>
                  sum_f_R0
                    (fun l => f.[S (l + k)] * x ^ S (l + k)
                              * (g.[(M + N - l)%nat] * x ^ (M + N - l)))
                    (Nat.pred (M + N - k)))).
    + rewrite Rplus_0_r. apply sum_eq. intros i Hi.
      rewrite Rmult_comm, scal_sum. apply sum_eq. intros j Hj.
      replace (x ^ i) with (x ^ j * x ^ (i - j))
        by (rewrite <- pow_add; f_equal; lia).
      ring.
    + intros k Hk. apply sum_eq_R0. intros l Hl.
      destruct (Nat.le_gt_cases (S (l + k)) M) as [H1 | H1].
      * rewrite (coef_beyond N g (M + N - l)) by lia. ring.
      * rewrite (coef_beyond M f (S (l + k))) by lia. ring.
Qed.

(** X6: [poly1 * poly2] stays within its array of [M + N + 1] elements; its
    coefficient [i] is the sum of the [a_j b_(i-j)] and it evaluates to
    [poly1(x) poly2(x)]. *)
Theorem mul_eval (M N : nat) (poly1 : Polynomial M) (poly2 : Polynomial N) :
  exists h : Polynomial (M + N),
    mul poly1 poly2 = InBounds h
    /\ (forall i : nat,
          (i <= M + N)%nat ->
          h.[i] = sum_f_R0 (fun j => poly1.[j] * poly2.[(i - j)%nat]) i)
    /\ forall x : R, eval h x = eval poly1 x * eval poly2 x.
Proof.
  destruct (mul_coefficients M N poly1 poly2) as [h [Hh Ch]].
  exists h. split; [exact Hh | split; [exact Ch |]].
  intros x. rewrite <- cauchy_product.
  rewrite <- (eval_sum_upto (M + N) h x (M + N)) by lia.
  apply sum_eq. intros i Hi. rewrite Ch by exact Hi. reflexivity.
Qed.

Lemma mul_eval_witness :
  exists h : Polynomial (1 + 1),
    mul (Polynomial1 0 1) (Polynomial1 0 1) = InBounds h
    /\ h.[2] = sum_f_R0 (fun j => (Polynomial1 0 1).[j]
                                  * (Polynomial1 0 1).[(2 - j)%nat]) 2.
Proof.
  destruct (mul_eval 1 1 (Polynomial1 0 1) (Polynomial1 0 1)) as [h [Hh [Ch _]]].
  exists h. split; [exact Hh |].
  apply Ch. lia.
Defined.

(** ** The derivative *)

Lemma monomial_derivative (c x : R) (n : nat) :
  derivable_pt_lim (fun y => c * y ^ n) x (c * (INR n * x ^ Nat.pred n)).
Proof.
  apply (derivable_pt_lim_scal (fun y => y ^ n) c x).
  apply derivable_pt_lim_pow.
Qed.

(** The derivative of a sum of monomials, term by term. *)
Lemma monomial_sum_derivative (a : nat -> R) (x : R) (n : nat) :
  derivable_pt_lim (fun y => sum_f_R0 (fun i => a i * y ^ i) (S n)) x
                   (sum_f_R0 (fun i => a (S i) * INR (i + 1) * x ^ i) n).
Proof.
  induction n as [| n IH].
  - cbn [sum_f_R0].
    apply (derivable_pt_lim_ext
             (plus_fct (fun y => a 0%nat * y ^ 0) (fun y => a 1%nat * y ^ 1)));
      [intros z; reflexivity |].
    replace (a 1%nat * INR (0 + 1) * x ^ 0)
      with (a 0%nat * (INR 0 * x ^ Nat.pred 0) + a 1%nat * (INR 1 * x ^ Nat.pred 1))
      by (cbn; ring).
    apply derivable_pt_lim_plus; apply monomial_derivative.
  - apply (derivable_pt_lim_ext
             (plus_fct (fun y => sum_f_R0 (fun i => a i * y ^ i) (S n))
                       (fun y => a (S (S n)) * y ^ S (S n))));
      [intros z; reflexivity |].
    change (sum_f_R0 (fun i => a (S i) * INR (i + 1) * x ^ i) (S n))
      with (sum_f_R0 (fun i => a (S i) * INR (i + 1) * x ^ i) n
            + a (S (S n)) * INR (S n + 1) * x ^ S n).
    apply derivable_pt_lim_plus; [exact IH |].
    replace (a (S (S n)) * INR (S n + 1) * x ^ S n)
      with (a (S (S n)) * (INR (S (S n)) * x ^ Nat.pred (S (S n)))).
    + apply monomial_derivative.
    + replace (S n + 1)%nat with (S (S n)) by lia. cbn [Nat.pred]. ring.
Qed.

(** X7: [derivative] of a polynomial of order [N + 1] stays within its array
    of [N + 1] elements, has the coefficients [(i+1) c_(i+1)], and its value
    at [x] is the derivative at [x] of the function that [operator()]
    computes. *)
Theorem derivative_correct (N : nat) (f : Polynomial (S N)) :
  exists f' : Polynomial N,
    derivative f = InBounds f'
    /\ (forall i : nat, (i <= N)%nat -> f'.[i] = f.[S i] * INR (i + 1))
    /\ forall x : R, derivable_pt_lim (eval f) x (eval f' x).
Proof.
  destruct (for_range_fill N (fun i => f.[S i] * INR (i + 1)) (default_Polynomial N))
    as [f' [Hf' Cf']].
  exists f'. split; [exact Hf' | split; [exact Cf' |]].
  intros x.
  apply (derivable_pt_lim_ext
           (fun y => sum_f_R0 (fun i => f.[i] * y ^ i) (S N))).
  - intros z. apply eval_sum_upto. lia.
  - rewrite <- (eval_sum_upto N f' x N) by lia.
    rewrite (sum_eq (fun i => f'.[i] * x ^ i)
                    (fun i => f.[S i] * INR (i + 1) * x ^ i) N)
      by (intros i Hi; rewrite Cf' by exact Hi; reflexivity).
    apply (monomial_sum_derivative (fun i => f.[i]) x N).
Qed.

Lemma derivative_correct_witness :
  exists f' : Polynomial 1,
    derivative (Polynomial2 2 (-1) 2) = InBounds f'
    /\ f'.[1] = (Polynomial2 2 (-1) 2).[2] * INR (1 + 1).
Proof.
  destruct (derivative_correct 1 (Polynomial2 2 (-1) 2)) as [f' [Hf' [Cf' _]]].
  exists f'. split; [exact Hf' |].
  apply Cf'. lia.
Defined.

(** X8: the derivative of an order-0 polynomial is the zero polynomial of
    order 0, which is the derivative of the constant function that
    [operator()] computes. *)
Theorem derivative0_correct (f : Polynomial 0) (x : R) :
  eval (derivative0 f) x = 0
  /\ derivable_pt_lim (eval f) x (eval (derivative0 f) x).
Proof.
  split; [reflexivity |].
  apply (derivable_pt_lim_ext (fun _ => f.[0])); [intros z; reflexivity |].
  change (eval (derivative0 f) x) with 0.
  apply derivable_pt_lim_const.
Qed.

(** ** Construction from a list and lowering of the order *)

(** X9: the initialiser-list constructor throws [std::length_error] exactly
    for a list of more than [Order + 1] values; otherwise every element of
    the array is written within bounds, so that, whatever the array held,
    the coefficient [i] is the [i]-th value of the list or zero past its
    end. *)
Theorem initializer_list_correct (Order : nat) (_list : list R)
  (base : Polynomial Order) :
  ((List.length _list <= S Order)%nat ->
   exists h : Polynomial Order,
     initializer_list _list base = Ok (InBounds h)
     /\ forall i : nat, h.[i] = nth i _list 0)
  /\ ((S Order < List.length _list)%nat ->
      initializer_list _list base
      = Throw (std_exception "initializer list too long")).
Proof.
  unfold initializer_list. split; intros Hlen.
  - destruct (Nat.ltb_spec (S Order) (List.length _list)) as [Hl | _]; [lia |].
    destruct (for_range_pointwise Order (fun i _ => nth i _list 0)
                0 (List.length _list) ltac:(lia) base) as [r1 [H1 C1]].
    destruct (for_range_pointwise Order (fun _ _ => 0)
                (List.length _list) (S Order - List.length _list) ltac:(lia) r1)
      as [r2 [H2 C2]].
    exists r2. split; [rewrite H1, H2; reflexivity |].
    intros i. destruct (Nat.le_gt_cases i Order) as [Hi | Hi].
    + rewrite C2, C1. cbn [Nat.leb andb Nat.add].
      destruct (Nat.leb_spec (List.length _list) i) as [Hge | Hlt]; cbn [andb].
      * destruct (Nat.ltb_spec i (List.length _list + (S Order - List.length _list)));
          [| lia].
        symmetry. apply nth_overflow. exact Hge.
      * destruct (Nat.ltb_spec i (List.length _list)); [reflexivity | lia].
    + rewrite coef_beyond by exact Hi.
      symmetry. apply nth_overflow. lia.
  - destruct (Nat.ltb_spec (S Order) (List.length _list)) as [_ | Hl];
      [reflexivity | lia].
Qed.

Lemma initializer_list_correct_witness :
  initializer_list [1/2; 1; 2] (default_Polynomial 1)
  = Throw (std_exception "initializer list too long").
Proof.
  assert (H : (2 < List.length [1/2; 1; 2])%nat) by (cbn; lia).
  exact (proj2 (initializer_list_correct 1 [1/2; 1; 2] (default_Polynomial 1)) H).
Defined.

(** X10: the lowering constructor.  A debug build throws exactly when the
    dropped coefficient is not zero.  When the constructor returns, the
    result has the coefficients [0 .. Order] of its argument and its value
    differs from the argument's by the dropped monomial: the values agree
    when the dropped coefficient is zero, and a release build drops a
    non-zero one silently. *)
Theorem lower_correct (MAGNET_DEBUG : bool) (M_throw : string -> cxx_exception)
  (Order : nat) (poly : Polynomial (S Order)) :
  (MAGNET_DEBUG = true -> poly.[S Order] <> 0 ->
   lower MAGNET_DEBUG M_throw poly = Throw (M_throw lower_msg))
  /\ (MAGNET_DEBUG = false \/ poly.[S Order] = 0 ->
      exists g : Polynomial Order,
        lower MAGNET_DEBUG M_throw poly = Ok g
        /\ (forall i : nat, (i <= Order)%nat -> g.[i] = poly.[i])
        /\ forall x : R, eval poly x = eval g x + poly.[S Order] * x ^ S Order).
Proof.
  unfold lower. split.
  - intros Hd Hc. rewrite Hd, Reqb_false by exact Hc. reflexivity.
  - intros H.
    assert (Hg : MAGNET_DEBUG && negb (Reqb poly.[S Order] 0) = false).
    { destruct H as [-> | Hc]; [reflexivity |].
      rewrite Reqb_true by exact Hc. apply andb_false_r. }
    rewrite Hg. eexists. split; [reflexivity |].
    assert (C : forall i : nat,
               (i <= Order)%nat ->
               (mkPolynomial Order (firstn (S Order) (coeffs poly))
                  (firstn_size Order (coeffs poly) (coeffs_size poly))).[i]
               = poly.[i]).
    { intros i Hi. unfold coef. cbn [coeffs]. rewrite nth_firstn.
      destruct (Nat.ltb_spec i (S Order)); [reflexivity | lia]. }
    split; [exact C |].
    intros x.
    rewrite <- (eval_sum_upto (S Order) poly x (S Order)) by lia.
    rewrite <- (eval_sum_upto Order _ x Order) by lia.
    cbn [sum_f_R0]. f_equal.
    apply sum_eq. intros i Hi. rewrite C by exact Hi. reflexivity.
Qed.

Lemma lower_correct_witness :
  exists g : Polynomial 1,
    lower false std_exception (Polynomial2 (-9) 12 3) = Ok g
    /\ forall x : R,
         eval (Polynomial2 (-9) 12 3) x
         = eval g x + (Polynomial2 (-9) 12 3).[2] * x ^ 2.
Proof.
  destruct (proj2 (lower_correct false std_exception 1 (Polynomial2 (-9) 12 3))
              (or_introl eq_refl)) as [g [Hg [_ Eg]]].
  exists g. split; [exact Hg | exact Eg].
Defined.

(** ** The solvers miss no root *)












(** ** The bounds of the orders 0 and 1 *)

(** X14: on an interval [tmin <= tmax], [max_abs_val] of an order-1
    polynomial is the maximum of [|f(t)|]: it bounds [|f(t)|] on the
    interval and is attained at an end point; for an order-0 polynomial it
    is [|f(t)|] at every [t]. *)
Theorem max_abs_val_low_orders (f0 : Polynomial 0) (f1 : Polynomial 1)
  (tmin tmax : R) :
  tmin <= tmax ->
  (forall t : R, Rabs (eval f0 t) = max_abs_val0 f0 tmin tmax)
  /\ (forall t : R,
        tmin <= t <= tmax -> Rabs (eval f1 t) <= max_abs_val1 f1 tmin tmax)
  /\ (exists t : R,
        tmin <= t <= tmax /\ Rabs (eval f1 t) = max_abs_val1 f1 tmin tmax).
Proof.
  intros Hle. split; [intros t; reflexivity | split].
  - intros t [Ha Hb]. unfold max_abs_val1.
    destruct (Rle_lt_dec 0 f1.[1]) as [Hc | Hc].
    + apply RmaxAbs; rewrite !eval1; nra.
    + rewrite Rmax_comm. apply RmaxAbs; rewrite !eval1; nra.
  - unfold max_abs_val1.
    apply (Rmax_case (Rabs (eval f1 tmin)) (Rabs (eval f1 tmax))
             (fun m => exists t : R, tmin <= t <= tmax /\ Rabs (eval f1 t) = m));
      [exists tmin | exists tmax]; (split; [lra | reflexivity]).
Qed.

Lemma max_abs_val_low_orders_witness :
  0 <= 3
  /\ Rabs (eval (Polynomial1 (-1) 2) 1) <= max_abs_val1 (Polynomial1 (-1) 2) 0 3.
Proof.
  assert (H : 0 <= 3) by lra.
  split; [exact H |].
  apply (proj1 (proj2 (max_abs_val_low_orders (Polynomial0 0) (Polynomial1 (-1) 2)
                         0 3 H))).
  lra.
Defined.

(** * Further properties of the event loop *)

Open Scope N_scope.

Section MoreLoopFacts.
Variable M_throw : string -> cxx_exception.
Variable runNextEvent : Simulation -> completion.
Variable periodicOutput : OutputPlugin -> Simulation -> completion.

Lemma foreach_periodicOutput_returns (plugins : list OutputPlugin) :
  plugins_return periodicOutput ->
  forall s : Simulation,
  exists s' : Simulation,
    foreach_periodicOutput periodicOutput plugins s = Returns s'.
Proof.
  intros Hr. induction plugins as [| Ptr rest IH]; intros s;
    cbn [foreach_periodicOutput].
  - exists s. reflexivity.
  - destruct (Hr Ptr s) as [s1 H1]. rewrite H1. apply IH.
Qed.

(** One iteration with a counting scheduler and well-behaved plugins. *)
Lemma try_block_counts (silentMode : bool) (s : Simulation) (nextPrint : N) :
  counts_events runNextEvent ->
  plugins_return periodicOutput ->
  plugins_keep_counters periodicOutput ->
  eventCount s < endEventCount s ->
  exists (s' : Simulation) (nextPrint' : N),
    try_block runNextEvent periodicOutput silentMode s nextPrint
    = (Returns s', nextPrint')
    /\ eventCount s' = eventCount s + 1
    /\ endEventCount s' = endEventCount s.
Proof.
  intros Hev Hret Hkeep Hc.
  destruct (Hev s Hc) as [s1 [H1 [E1 E2]]].
  unfold try_block. rewrite H1.
  destruct ((nextPrint <=? eventCount s1) && negb silentMode
            && negb (List.length (outputPlugins s1) =? 0)%nat).
  - destruct (foreach_periodicOutput_returns (outputPlugins s1) Hret s1)
      as [s2 H2].
    rewrite H2.
    destruct (foreach_periodicOutput_counters periodicOutput
                (outputPlugins s1) Hkeep s1 s2 H2) as [E3 E4].
    eexists. eexists. split; [reflexivity |]. split; congruence.
  - eexists. eexists. split; [reflexivity |]. split; assumption.
Qed.

Lemma while_loop_counts (silentMode : bool) (n : nat) :
  counts_events runNextEvent ->
  plugins_return periodicOutput ->
  plugins_keep_counters periodicOutput ->
  forall (s : Simulation) (nextPrint : N) (fuel : nat),
    N.to_nat (endEventCount s - eventCount s) = n ->
    (n <= fuel)%nat ->
    exists sf : Simulation,
      while_loop M_throw runNextEvent periodicOutput fuel silentMode s nextPrint
      = mkRun n (Finished sf)
      /\ endEventCount sf = endEventCount s
      /\ (eventCount s <= endEventCount s -> eventCount sf = endEventCount s).
Proof.
  intros Hev Hret Hkeep.
  induction n as [| n IH]; intros s nextPrint fuel Hn Hfuel.
  - exists s. split; [| split; [reflexivity | lia]].
    rewrite while_loop_exit by (apply N.ltb_ge; lia). reflexivity.
  - destruct fuel as [| fuel]; [lia |].
    assert (Hc : eventCount s < endEventCount s) by lia.
    destruct (try_block_counts silentMode s nextPrint Hev Hret Hkeep Hc)
      as [s1 [np1 [H1 [E1 E2]]]].
    destruct (IH s1 np1 fuel ltac:(lia) ltac:(lia)) as [sf [Hf [E3 E4]]].
    exists sf. split; [| split; [congruence | intros _; rewrite E4; [congruence | lia]]].
    rewrite while_loop_step by (apply N.ltb_lt; exact Hc).
    rewrite H1, Hf. reflexivity.
Qed.

(** In silent mode an iteration does not depend on the plugins. *)
Lemma try_block_silent (periodicOutput' : OutputPlugin -> Simulation -> completion)
  (s : Simulation) (nextPrint : N) :
  try_block runNextEvent periodicOutput true s nextPrint
  = try_block runNextEvent periodicOutput' true s nextPrint.
Proof.
  unfold try_block. destruct (runNextEvent s) as [s1 | s1 e]; [| reflexivity].
  cbn [negb]. rewrite !andb_false_r. reflexivity.
Qed.

Lemma while_loop_silent (periodicOutput' : OutputPlugin -> Simulation -> completion)
  (fuel : nat) :
  forall (s : Simulation) (nextPrint : N),
    while_loop M_throw runNextEvent periodicOutput fuel true s nextPrint
    = while_loop M_throw runNextEvent periodicOutput' fuel true s nextPrint.
Proof.
  induction fuel as [| fuel IH]; intros s nextPrint; cbn [while_loop].
  - reflexivity.
  - rewrite (try_block_silent periodicOutput').
    destruct (eventCount s <? endEventCount s); [| reflexivity].
    destruct (try_block runNextEvent periodicOutput' true s nextPrint)
      as [[s1 | s1 e] np1]; [| reflexivity].
    rewrite IH. reflexivity.
Qed.
End MoreLoopFacts.

(** X15: with a scheduler whose events each advance the event counter by one
    and leave the end of the run where it is, and plugins that return
    without touching the two counters, a run started in an accepted state
    ends by itself after exactly [endEventCount - eventCount] events (none
    when the counter is already past the end), with [eventCount] equal to
    [endEventCount], provided it is allowed that many iterations. *)
Theorem runSimulation_event_count
  (M_throw : string -> cxx_exception)
  (runNextEvent : Simulation -> completion)
  (periodicOutput : OutputPlugin -> Simulation -> completion)
  (silentMode : bool) (fuel : nat) (s : Simulation) :
  counts_events runNextEvent ->
  plugins_return periodicOutput ->
  plugins_keep_counters periodicOutput ->
  bad_state s = false ->
  (N.to_nat (endEventCount s - eventCount s) <= fuel)%nat ->
  exists sf : Simulation,
    runSimulation M_throw runNextEvent periodicOutput fuel silentMode s
    = mkRun (N.to_nat (endEventCount s - eventCount s)) (Finished sf)
    /\ endEventCount sf = endEventCount s
    /\ (eventCount s <= endEventCount s -> eventCount sf = endEventCount s).
Proof.
  intros Hev Hret Hkeep Hs Hfuel.
  unfold runSimulation. rewrite Hs. unfold enters.
  apply (while_loop_counts M_throw runNextEvent periodicOutput silentMode
           (N.to_nat (endEventCount s - eventCount s)) Hev Hret Hkeep
           (set_status PRODUCTION s)).
  - reflexivity.
  - exact Hfuel.
Qed.

Lemma runSimulation_event_count_witness :
  exists sf : Simulation,
    runSimulation std_exception counting_scheduler quiet_plugin 8 false
                  (sample_simulation 0)
    = mkRun (N.to_nat (endEventCount (sample_simulation 0)
                       - eventCount (sample_simulation 0)))
            (Finished sf)
    /\ endEventCount sf = endEventCount (sample_simulation 0)
    /\ (eventCount (sample_simulation 0) <= endEventCount (sample_simulation 0) ->
        eventCount sf = endEventCount (sample_simulation 0)).
Proof.
  apply (runSimulation_event_count std_exception counting_scheduler quiet_plugin
           false 8 (sample_simulation 0)).
  - intros s _. exists (count_event s). repeat split.
  - intros Ptr s. exists s. reflexivity.
  - intros Ptr s s' H. injection H as H. subst s'. split; reflexivity.
  - reflexivity.
  - cbn. lia.
Defined.

(** X16: in silent mode the plugins take no part in a run: the run is the
    same whatever [periodicOutput] does. *)
Theorem runSimulation_silent
  (M_throw : string -> cxx_exception)
  (runNextEvent : Simulation -> completion)
  (periodicOutput periodicOutput' : OutputPlugin -> Simulation -> completion)
  (fuel : nat) (s : Simulation) :
  runSimulation M_throw runNextEvent periodicOutput fuel true s
  = runSimulation M_throw runNextEvent periodicOutput' fuel true s.
Proof.
  unfold runSimulation. destruct (bad_state s); [reflexivity |].
  destruct (enters s) as [s1 np1]. apply while_loop_silent.
Qed.

Lemma foreach_periodicOutput_app
  (periodicOutput : OutputPlugin -> Simulation -> completion)
  (l1 l2 : list OutputPlugin) :
  forall s : Simulation,
    foreach_periodicOutput periodicOutput (l1 ++ l2) s
    = match foreach_periodicOutput periodicOutput l1 s with
      | Returns s' => foreach_periodicOutput periodicOutput l2 s'
      | Throws s' e => Throws s' e
      end.
Proof.
  induction l1 as [| Ptr rest IH]; intros s; cbn [foreach_periodicOutput app].
  - reflexivity.
  - destruct (periodicOutput Ptr s) as [s1 | s1 e]; [apply IH | reflexivity].
Qed.

(** X17: an exception thrown by a plugin's [periodicOutput] is caught like
    one of the event itself.  When the event of an iteration has returned,
    the periodic output is due, the plugins before [Ptr] in the list have
    returned and [Ptr] throws, the run is aborted: for a [std::exception]
    with the diagnostic "While executing event", the event count and the
    plugin's message, for another exception with that exception.  The
    plugins after [Ptr] are not called and no further event is executed. *)
Theorem plugin_failure_aborts_the_run
  (M_throw : string -> cxx_exception)
  (runNextEvent : Simulation -> completion)
  (periodicOutput : OutputPlugin -> Simulation -> completion)
  (k fuel : nat) (s0 s s1 s1' s2 : Simulation) (nextPrint : N)
  (before : list OutputPlugin) (Ptr : OutputPlugin) (rest : list OutputPlugin)
  (e : cxx_exception) :
  bad_state s0 = false ->
  reaches runNextEvent periodicOutput false k
          (fst (enters s0)) (snd (enters s0)) s nextPrint ->
  (eventCount s <? endEventCount s) = true ->
  runNextEvent s = Returns s1 ->
  nextPrint <= eventCount s1 ->
  outputPlugins s1 = before ++ Ptr :: rest ->
  foreach_periodicOutput periodicOutput before s1 = Returns s1' ->
  periodicOutput Ptr s1' = Throws s2 e ->
  runSimulation M_throw runNextEvent periodicOutput (k + S fuel) false s0
  = mkRun (S k)
      (Aborted s2
         match e with
         | std_exception what =>
             M_throw (newline ++ "While executing event "
                      ++ show (eventCount s2) ++ what)%string
         | other_exception => other_exception
         end).
Proof.
  intros Hs Hr Hc He Hdue Hpl Hbefore Hp.
  rewrite (runSimulation_reaches M_throw runNextEvent periodicOutput
             false k (S fuel) s0 s nextPrint Hs Hr).
  rewrite while_loop_step by exact Hc.
  unfold try_block. rewrite He.
  apply N.leb_le in Hdue. rewrite Hdue, Hpl.
  assert (Hne : (List.length (before ++ Ptr :: rest) =? 0)%nat = false).
  { apply Nat.eqb_neq. rewrite length_app. cbn [List.length]. lia. }
  rewrite Hne. cbn [negb andb].
  rewrite foreach_periodicOutput_app, Hbefore.
  cbn [foreach_periodicOutput]. rewrite Hp.
  cbn [events ending]. unfold catch_block. f_equal. lia.
Qed.

Lemma plugin_failure_aborts_the_run_witness :
  runSimulation std_exception counting_scheduler (one_failing_plugin 1 "disk full")
                (0 + S 3) false
                (mkSimulation INITIALISED 5 10 0 1 0%R [0%nat; 1%nat; 2%nat])
  = mkRun 1
      (Aborted (mkSimulation PRODUCTION 6 10 0 1 0%R [0%nat; 1%nat; 2%nat])
         (std_exception
            (newline ++ "While executing event "
             ++ show (eventCount
                        (mkSimulation PRODUCTION 6 10 0 1 0%R [0%nat; 1%nat; 2%nat]))
             ++ "disk full"))).
Proof.
  refine (plugin_failure_aborts_the_run
            std_exception counting_scheduler (one_failing_plugin 1 "disk full")
            0 3 (mkSimulation INITIALISED 5 10 0 1 0%R [0%nat; 1%nat; 2%nat])
            (mkSimulation PRODUCTION 5 10 0 1 0%R [0%nat; 1%nat; 2%nat])
            (mkSimulation PRODUCTION 6 10 0 1 0%R [0%nat; 1%nat; 2%nat])
            (mkSimulation PRODUCTION 6 10 0 1 0%R [0%nat; 1%nat; 2%nat])
            (mkSimulation PRODUCTION 6 10 0 1 0%R [0%nat; 1%nat; 2%nat])
            6 [0%nat] 1%nat [2%nat] (std_exception "disk full") _ _ _ _ _ _ _ _).
  - reflexivity.
  - apply reaches_here.
  - reflexivity.
  - reflexivity.
  - cbn. lia.
  - reflexivity.
  - reflexivity.
  - reflexivity.
Defined.

(** X18: [configLoaded] succeeds exactly from the status [START] and leaves
    the status [CONFIG_LOADED]; a simulation it has just left is refused by
    a second [configLoaded] and by [runSimulation], which then executes no
    event. *)
Theorem configLoaded_once
  (M_throw : string -> cxx_exception)
  (runNextEvent : Simulation -> completion)
  (periodicOutput : OutputPlugin -> Simulation -> completion)
  (fuel : nat) (silentMode : bool) (s : Simulation) :
  (status s <> START ->
   configLoaded M_throw s = Throws s (M_throw "Loading config at wrong time"%string))
  /\ (status s = START ->
      exists s' : Simulation,
        configLoaded M_throw s = Returns s'
        /\ status s' = CONFIG_LOADED
        /\ configLoaded M_throw s'
           = Throws s' (M_throw "Loading config at wrong time"%string)
        /\ runSimulation M_throw runNextEvent periodicOutput fuel silentMode s'
           = mkRun 0 (Aborted s' (M_throw "Bad state for runSimulation()"%string))).
Proof.
  unfold configLoaded. split.
  - intros H. destruct (status s); try reflexivity. contradiction.
  - intros H. rewrite H. cbn [status_eqb negb].
    eexists. split; [reflexivity |]. repeat split.
Qed.

Lemma configLoaded_once_witness :
  exists s' : Simulation,
    configLoaded std_exception (mkSimulation START 0 10 0 1 0%R []) = Returns s'
    /\ status s' = CONFIG_LOADED.
Proof.
  destruct (proj2 (configLoaded_once std_exception counting_scheduler quiet_plugin
                     1 false (mkSimulation START 0 10 0 1 0%R []))
              eq_refl) as [s' [H1 [H2 _]]].
  exists s'. split; [exact H1 | exact H2].
Defined.

(** * Properties of the attribute statistics *)

Import Coil.
Open Scope R_scope.

Lemma read_in_range (v : list R) (k : nat) :
  (k < List.length v)%nat -> read v k = Some (nth k v 0).
Proof. intros H. unfold read. apply nth_error_nth'. exact H. Qed.

Lemma write_in_range (v : list R) (k : nat) (x : R) :
  (k < List.length v)%nat ->
  exists v' : list R,
    write v k x = Some v'
    /\ List.length v' = List.length v
    /\ forall m : nat, nth m v' 0 = if (m =? k)%nat then x else nth m v 0.
Proof.
  intros H. unfold write. apply Nat.ltb_lt in H as Hb. rewrite Hb.
  eexists. split; [reflexivity | split].
  - rewrite length_app, length_firstn. cbn [List.length]. rewrite length_skipn. lia.
  - intros m. apply nth_write. exact H.
Qed.

Lemma for_opt_app (A : Type) (body : nat -> A -> option A) (l1 l2 : list nat) :
  forall a : A,
    for_opt (l1 ++ l2) body a
    = match for_opt l1 body a with
      | Some a' => for_opt l2 body a'
      | None => None
      end.
Proof.
  induction l1 as [| i rest IH]; intros a; cbn [for_opt app].
  - reflexivity.
  - destruct (body i a) as [a' |]; [apply IH | reflexivity].
Qed.

(** One step of the inner loop, within bounds. *)
Lemma update_statistics_step (d : list R) (c i j : nat) (mins maxs : list R) :
  (j < c)%nat ->
  (i * c + c <= List.length d)%nat ->
  List.length mins = c ->
  List.length maxs = c ->
  exists mins' maxs' : list R,
    update_statistics d c i j (mins, maxs) = Some (mins', maxs')
    /\ List.length mins' = c
    /\ List.length maxs' = c
    /\ (forall m : nat,
          nth m mins' 0
          = if (m =? j)%nat
            then Rmin (nth j mins 0) (nth (i * c + j) d 0)
            else nth m mins 0)
    /\ (forall m : nat,
          nth m maxs' 0
          = if (m =? j)%nat
            then Rmax (Rmin (nth j mins 0) (nth (i * c + j) d 0))
                      (nth (i * c + j) d 0)
            else nth m maxs 0).
Proof.
  intros Hj Hd Hmin Hmax. unfold update_statistics.
  rewrite (read_in_range mins j) by lia.
  rewrite (read_in_range d (i * c + j)) by lia.
  destruct (write_in_range mins j (Rmin (nth j mins 0) (nth (i * c + j) d 0)))
    as [mins' [Hw [Hl Hn]]]; [lia |].
  rewrite Hw. rewrite (read_in_range mins' j) by lia.
  assert (Hjj : nth j mins' 0 = Rmin (nth j mins 0) (nth (i * c + j) d 0))
    by (rewrite Hn, Nat.eqb_refl; reflexivity).
  rewrite Hjj.
  destruct (write_in_range maxs j
              (Rmax (Rmin (nth j mins 0) (nth (i * c + j) d 0))
                    (nth (i * c + j) d 0)))
    as [maxs' [Hw' [Hl' Hn']]]; [lia |].
  rewrite Hw'. exists mins', maxs'.
  split; [reflexivity |]. split; [lia |]. split; [lia |].
  split; assumption.
Qed.

(** The inner loop over the first [m] components of the element [i]. *)
Lemma inner_loop (d : list R) (c i m : nat) :
  (m <= c)%nat ->
  (i * c + c <= List.length d)%nat ->
  forall mins maxs : list R,
    List.length mins = c ->
    List.length maxs = c ->
    exists mins' maxs' : list R,
      for_opt (seq 0 m) (update_statistics d c i) (mins, maxs)
      = Some (mins', maxs')
      /\ List.length mins' = c
      /\ List.length maxs' = c
      /\ (forall j : nat,
            nth j mins' 0
            = if (j <? m)%nat
              then Rmin (nth j mins 0) (nth (i * c + j) d 0)
              else nth j mins 0)
      /\ (forall j : nat,
            nth j maxs' 0
            = if (j <? m)%nat
              then Rmax (Rmin (nth j mins 0) (nth (i * c + j) d 0))
                        (nth (i * c + j) d 0)
              else nth j maxs 0).
Proof.
  intros Hm Hd. induction m as [| m IH]; intros mins maxs Hmin Hmax.
  - exists mins, maxs. repeat split; assumption || reflexivity.
  - destruct (IH ltac:(lia) mins maxs Hmin Hmax)
      as [mins1 [maxs1 [H1 [L1 [L1' [N1 N1']]]]]].
    destruct (update_statistics_step d c i m mins1 maxs1 ltac:(lia) Hd L1 L1')
      as [mins2 [maxs2 [H2 [L2 [L2' [N2 N2']]]]]].
    exists mins2, maxs2.
    split; [| split; [exact L2 | split; [exact L2' | split]]].
    + rewrite seq_S, for_opt_app, H1. cbn [for_opt Nat.add]. rewrite H2.
      reflexivity.
    + intros j. rewrite N2, !N1.
      destruct (Nat.eqb_spec j m) as [-> | Hne].
      * rewrite Nat.ltb_irrefl.
        destruct (Nat.ltb_spec m (S m)); [reflexivity | lia].
      * destruct (Nat.ltb_spec j m); destruct (Nat.ltb_spec j (S m));
          try reflexivity; lia.
    + intros j. rewrite N2', N1', !N1.
      destruct (Nat.eqb_spec j m) as [-> | Hne].
      * rewrite Nat.ltb_irrefl.
        destruct (Nat.ltb_spec m (S m)); [reflexivity | lia].
      * destruct (Nat.ltb_spec j m); destruct (Nat.ltb_spec j (S m));
          try reflexivity; lia.
Qed.

(** The outer loop over the elements [1 .. k]: the minima are the minima of
    the elements [0 .. k], the "maxima" are the components of the element
    [k]. *)
Lemma outer_loop (d : list R) (c k : nat) :
  (0 < c)%nat ->
  (k * c + c <= List.length d)%nat ->
  exists mins maxs : list R,
    for_opt (seq 1 k)
      (fun i st => for_opt (seq 0 c) (update_statistics d c i) st)
      (firstn c d, firstn c d)
    = Some (mins, maxs)
    /\ List.length mins = c
    /\ List.length maxs = c
    /\ forall j : nat,
         (j < c)%nat ->
         (forall i : nat, (i <= k)%nat -> nth j mins 0 <= nth (i * c + j) d 0)
         /\ (exists i : nat, (i <= k)%nat /\ nth j mins 0 = nth (i * c + j) d 0)
         /\ nth j maxs 0 = nth (k * c + j) d 0.
Proof.
  intros Hc. induction k as [| k IH]; intros Hd.
  - assert (Hl : List.length (firstn c d) = c) by (rewrite length_firstn; lia).
    exists (firstn c d), (firstn c d).
    split; [reflexivity | split; [exact Hl | split; [exact Hl |]]].
    intros j Hj.
    assert (Hn : nth j (firstn c d) 0 = nth (0 * c + j) d 0).
    { rewrite nth_firstn. apply Nat.ltb_lt in Hj. rewrite Hj. reflexivity. }
    split; [| split].
    + intros i Hi. replace i with 0%nat by lia. rewrite Hn. lra.
    + exists 0%nat. split; [lia | exact Hn].
    + exact Hn.
  - destruct (IH ltac:(nia)) as [mins1 [maxs1 [H1 [L1 [L1' Inv]]]]].
    destruct (inner_loop d c (S k) c ltac:(lia) Hd mins1 maxs1 L1 L1')
      as [mins2 [maxs2 [H2 [L2 [L2' [N2 N2']]]]]].
    exists mins2, maxs2.
    split; [| split; [exact L2 | split; [exact L2' |]]].
    + rewrite seq_S, for_opt_app, H1. cbn [for_opt Nat.add]. rewrite H2.
      reflexivity.
    + intros j Hj. destruct (Inv j Hj) as [Ile [[i0 [Hi0 Ieq]] _]].
      rewrite N2, N2'. apply Nat.ltb_lt in Hj as Hjb. rewrite Hjb.
      split; [| split].
      * intros i Hi. destruct (Nat.eq_dec i (S k)) as [-> | Hne].
        -- apply Rmin_r.
        -- eapply Rle_trans; [apply Rmin_l | apply Ile; lia].
      * apply (Rmin_case (nth j mins1 0) (nth (S k * c + j) d 0)
                 (fun m => exists i : nat,
                           (i <= S k)%nat /\ m = nth (i * c + j) d 0)).
        -- exists i0. split; [lia | exact Ieq].
        -- exists (S k). split; [lia | reflexivity].
      * apply Rmax_right. apply Rmin_r.
Qed.

Lemma initGLData_statistics (a : Attribute) :
  (0 < _components a)%nat ->
  (_components a <= List.length (buffer a))%nat ->
  exists mins maxs : list R,
    initGLData a
    = Some (mkAttribute (buffer a) (_components a) (S (_dataUpdates a)) mins maxs)
    /\ List.length mins = _components a
    /\ List.length maxs = _components a
    /\ forall j : nat,
         (j < _components a)%nat ->
         (forall i : nat,
             (i < List.length (buffer a) / _components a)%nat ->
             nth j mins 0 <= nth (i * _components a + j) (buffer a) 0)
         /\ (exists i : nat,
               (i < List.length (buffer a) / _components a)%nat
               /\ nth j mins 0 = nth (i * _components a + j) (buffer a) 0)
         /\ nth j maxs 0
            = nth ((List.length (buffer a) / _components a - 1) * _components a + j)
                  (buffer a) 0.
Proof.
  intros Hc Hlen.
  set (c := _components a) in *. set (d := buffer a) in *.
  set (n := (List.length d / c)%nat).
  assert (Hn : (0 < n)%nat) by (apply Nat.div_str_pos; lia).
  assert (Hnc : (c * n <= List.length d)%nat)
    by (apply Nat.Div0.mul_div_le).
  destruct (outer_loop d c (n - 1) Hc ltac:(nia))
    as [mins [maxs [Hloop [Lmin [Lmax Inv]]]]].
  exists mins, maxs. split; [| split; [exact Lmin | split; [exact Lmax |]]].
  - unfold initGLData, range_copy, num_elements, components.
    fold c d. apply Nat.leb_le in Hlen as Hb. rewrite Hb.
    destruct (Nat.eqb_spec c 0) as [E | _]; [lia |].
    fold n. rewrite Hloop. reflexivity.
  - intros j Hj. destruct (Inv j Hj) as [Ile [[i0 [Hi0 Ieq]] Imax]].
    split; [| split].
    + intros i Hi. apply Ile. lia.
    + exists i0. split; [lia | exact Ieq].
    + exact Imax.
Qed.

(** X19: on an attribute with at least one component per element and at
    least one element, [initGLData] stays within its vectors, leaves the
    buffer as it is, counts one more update, and [_minVals[j]] is the
    minimum of the component [j] over all the elements: a lower bound that
    one of the elements attains. *)
Theorem initGLData_minimum (a : Attribute) :
  (0 < _components a)%nat ->
  (_components a <= List.length (buffer a))%nat ->
  exists a' : Attribute,
    initGLData a = Some a'
    /\ buffer a' = buffer a
    /\ _dataUpdates a' = S (_dataUpdates a)
    /\ List.length (_minVals a') = _components a
    /\ forall j : nat,
         (j < _components a)%nat ->
         (forall i : nat,
             (i < List.length (buffer a) / _components a)%nat ->
             nth j (_minVals a') 0 <= nth (i * _components a + j) (buffer a) 0)
         /\ exists i : nat,
              (i < List.length (buffer a) / _components a)%nat
              /\ nth j (_minVals a') 0 = nth (i * _components a + j) (buffer a) 0.
Proof.
  intros Hc Hlen.
  destruct (initGLData_statistics a Hc Hlen) as [mins [maxs [H [Lmin [_ Inv]]]]].
  eexists. split; [exact H |]. cbn [buffer _dataUpdates _minVals].
  split; [reflexivity | split; [reflexivity | split; [exact Lmin |]]].
  intros j Hj. destruct (Inv j Hj) as [Ile [Iex _]]. split; assumption.
Qed.

Lemma initGLData_minimum_witness :
  exists a' : Attribute,
    initGLData sample_attribute = Some a'
    /\ List.length (_minVals a') = 2%nat.
Proof.
  assert (Hc : (0 < _components sample_attribute)%nat)
    by (cbn; lia).
  assert (Hl : (_components sample_attribute
                <= List.length (buffer sample_attribute))%nat)
    by (cbn; lia).
  destruct (initGLData_minimum sample_attribute Hc Hl)
    as [a' [H [_ [_ [L _]]]]].
  exists a'. split; [exact H | exact L].
Defined.

(** X20: under the same conditions [_maxVals[j]] is the component [j] of
    the last element of the buffer, whatever the other elements hold: each
    iteration takes the larger of the new minimum and the current value,
    which is the current value. *)
Theorem initGLData_maxVals_last_element (a : Attribute) :
  (0 < _components a)%nat ->
  (_components a <= List.length (buffer a))%nat ->
  exists a' : Attribute,
    initGLData a = Some a'
    /\ List.length (_maxVals a') = _components a
    /\ forall j : nat,
         (j < _components a)%nat ->
         nth j (_maxVals a') 0
         = nth ((List.length (buffer a) / _components a - 1) * _components a + j)
               (buffer a) 0.
Proof.
  intros Hc Hlen.
  destruct (initGLData_statistics a Hc Hlen) as [mins [maxs [H [_ [Lmax Inv]]]]].
  eexists. split; [exact H |]. cbn [_maxVals].
  split; [exact Lmax |].
  intros j Hj. destruct (Inv j Hj) as [_ [_ Imax]]. exact Imax.
Qed.

Lemma initGLData_maxVals_last_element_witness :
  exists a' : Attribute,
    initGLData sample_attribute = Some a'
    /\ nth 1 (_maxVals a') 0 = 20.
Proof.
  assert (Hc : (0 < _components sample_attribute)%nat)
    by (cbn; lia).
  assert (Hl : (_components sample_attribute
                <= List.length (buffer sample_attribute))%nat)
    by (cbn; lia).
  destruct (initGLData_maxVals_last_element
              sample_attribute Hc Hl)
    as [a' [H [_ M]]].
  exists a'. split; [exact H |].
  rewrite (M 1%nat) by (cbn; lia). reflexivity.
Defined.

(** X21: [initGLData] leaves defined behaviour exactly when the attribute
    has no component per element (the division of [num_elements]) or a
    buffer shorter than one element (the copies of the first element). *)
Theorem initGLData_undefined (a : Attribute) :
  initGLData a = None
  <-> (_components a = 0%nat \/ (List.length (buffer a) < _components a)%nat).
Proof.
  split.
  - intros H.
    destruct (Nat.eq_dec (_components a) 0) as [E | E]; [left; exact E |].
    destruct (Nat.lt_ge_cases (List.length (buffer a)) (_components a))
      as [Hl | Hl]; [right; exact Hl |].
    destruct (initGLData_statistics a ltac:(lia) Hl) as [mins [maxs [Hs _]]].
    rewrite Hs in H. discriminate H.
  - intros [E | Hl]; unfold initGLData, range_copy, num_elements, components.
    + rewrite E. cbn [Nat.leb Nat.eqb]. reflexivity.
    + destruct (Nat.leb_spec (_components a) (List.length (buffer a)));
        [lia | reflexivity].
Qed.

Lemma initGLData_undefined_witness :
  _components (mkAttribute [] 0 0 [] []) = 0%nat
  /\ initGLData (mkAttribute [] 0 0 [] []) = None.
Proof.
  assert (H : _components (mkAttribute [] 0 0 [] []) = 0%nat) by reflexivity.
  split; [exact H |].
  exact (proj2 (initGLData_undefined (mkAttribute [] 0 0 [] [])) (or_introl H)).
Defined.

(** * The solvers in IEEE 754 arithmetic against the exact ones *)

Open Scope R_scope.

(** The real number of a finite [double] with a negative exponent. *)
Lemma to_R_ratio (s : bool) (m p : positive) :
  Binary64.to_R (S754_finite s m (Zneg p))
  = IZR (if s then Zneg m else Zpos m) / IZR (Z.pow_pos 2 p).
Proof.
  unfold Binary64.to_R. cbn [powerRZ]. unfold Rdiv. f_equal. f_equal.
  change (Z.pow_pos 2 p) with (2 ^ Zpos p)%Z.
  rewrite <- (positive_nat_Z p), <- pow_IZR. reflexivity.
Qed.

Ltac float_value x :=
  let v := eval vm_compute in x in change x with v.

(** The coefficients of [close_roots] are the integers they were converted
    from. *)
Lemma close_roots_c0 :
  Binary64.to_R (Binary64.coef Binary64.close_roots 0) = 4503599694479360.
Proof.
  float_value (Binary64.coef Binary64.close_roots 0).
  unfold Binary64.to_R. cbn [powerRZ]. lra.
Qed.

Lemma close_roots_c1 :
  Binary64.to_R (Binary64.coef Binary64.close_roots 1) = 134217729.
Proof.
  float_value (Binary64.coef Binary64.close_roots 1). rewrite to_R_ratio.
  float_value (Z.pow_pos 2 25). lra.
Qed.

Lemma close_roots_c2 :
  Binary64.to_R (Binary64.coef Binary64.close_roots 2) = 1.
Proof.
  float_value (Binary64.coef Binary64.close_roots 2). rewrite to_R_ratio.
  float_value (Z.pow_pos 2 52). lra.
Qed.

Lemma close_roots_discriminant :
  Math.arg (Binary64.to_real Binary64.close_roots) = 1.
Proof.
  unfold Math.arg, Binary64.to_real, Math.coef, Math.Polynomial2.
  cbn [Math.coeffs nth].
  rewrite close_roots_c0, close_roots_c1, close_roots_c2. lra.
Qed.

(** C1 as stated does not hold of the [double] arithmetic of the source.
    The polynomial [x^2 + (2^27 + 1) x + (2^52 + 2^26)] has [c2 = 1] and the
    discriminant [D = 1 > 0]; the product [c1 * c1] rounds to
    [2^54 + 2^28], the computed discriminant is 0, and [solve_roots] returns
    the single value [-(2^27 + 1)/2], where the exact solver returns two
    roots. *)
Lemma solve_roots_rounds_the_discriminant :
  (Binary64.to_real Binary64.close_roots).[2] <> 0
  /\ (Binary64.to_real Binary64.close_roots).[1]
     * (Binary64.to_real Binary64.close_roots).[1]
     - 4 * (Binary64.to_real Binary64.close_roots).[2]
       * (Binary64.to_real Binary64.close_roots).[0] = 1
  /\ Binary64.arg Binary64.close_roots = S754_zero false
  /\ Binary64.solve_roots2 true std_exception Binary64.close_roots
     = Ok [Binary64.of_scaled (- (2 ^ 27 + 1)) (-1)]
  /\ solve_roots2 true std_exception (Binary64.to_real Binary64.close_roots)
     = Ok [root1 (Binary64.to_real Binary64.close_roots);
           root2 (Binary64.to_real Binary64.close_roots)].
Proof.
  assert (H2 : (Binary64.to_real Binary64.close_roots).[2] <> 0).
  { unfold Binary64.to_real, coef, Polynomial2. cbn [coeffs nth].
    rewrite close_roots_c2. lra. }
  pose proof close_roots_discriminant as Hd.
  split; [exact H2 | split; [exact Hd | split; [| split]]].
  - vm_compute. reflexivity.
  - vm_compute. reflexivity.
  - apply solve_roots2_two_roots; [exact H2 | rewrite Hd; lra].
Qed.

(** C6 as stated does not hold of the [double] arithmetic of the source.
    For [f(t) = 2^1023 t^2 - 2^1023 t] on the interval from 0 to 1 the
    product [2 * f[2]] overflows to an infinity, the vertex is computed as
    0 and is not inside the interval, and [max_abs_val] returns
    [max(|f(0)|, |f(1)|) = 0]; yet [operator()] itself gives
    [|f(1/2)| = 2^1021], which is the exact value. *)
Lemma max_abs_val_misses_the_vertex :
  (Binary64.to_real Binary64.huge_parabola).[2] <> 0
  /\ Binary64.max_abs_val2 Binary64.huge_parabola (Binary64.of_Z 0) (Binary64.of_Z 1)
     = S754_zero false
  /\ Binary64.leb (Binary64.of_Z 0) (Binary64.of_scaled 1 (-1)) = true
  /\ Binary64.leb (Binary64.of_scaled 1 (-1)) (Binary64.of_Z 1) = true
  /\ Binary64.abs (Binary64.eval Binary64.huge_parabola (Binary64.of_scaled 1 (-1)))
     = Binary64.of_scaled 1 1021
  /\ 0 <= 1 / 2 <= 1
  /\ Binary64.to_R
       (Binary64.max_abs_val2 Binary64.huge_parabola
          (Binary64.of_Z 0) (Binary64.of_Z 1))
     < Rabs (eval (Binary64.to_real Binary64.huge_parabola) (1 / 2)).
Proof.
  assert (HP : 0 < powerRZ 2 971) by (apply powerRZ_lt; lra).
  assert (E0 : Binary64.to_R (Binary64.coef Binary64.huge_parabola 0) = 0).
  { float_value (Binary64.coef Binary64.huge_parabola 0). reflexivity. }
  assert (E1 : Binary64.to_R (Binary64.coef Binary64.huge_parabola 1)
               = -4503599627370496 * powerRZ 2 971).
  { float_value (Binary64.coef Binary64.huge_parabola 1). reflexivity. }
  assert (E2 : Binary64.to_R (Binary64.coef Binary64.huge_parabola 2)
               = 4503599627370496 * powerRZ 2 971).
  { float_value (Binary64.coef Binary64.huge_parabola 2). reflexivity. }
  repeat split; try (vm_compute; reflexivity); try lra.
  - unfold Binary64.to_real, coef, Polynomial2. cbn [coeffs nth].
    rewrite E2. lra.
  - float_value (Binary64.max_abs_val2 Binary64.huge_parabola
                   (Binary64.of_Z 0) (Binary64.of_Z 1)).
    cbn [Binary64.to_R].
    rewrite eval2. unfold Binary64.to_real, coef, Polynomial2. cbn [coeffs nth].
    rewrite E0, E1, E2.
    set (P := powerRZ 2 971) in *.
    unfold Rabs. destruct (Rcase_abs _) as [Hn | Hn]; lra.
Qed.
